(** * Conway's Game of Life for the Arduino Esplora: the sketch's state
      machine, embedded from [application.ino].

    The sketch keeps a 32 x 32 array of cells, a cursor, a play flag and the
    last level read from the joystick button.  Every function of the sketch
    is a definition below with the same name; functions that the sketch
    runs for their effect on the globals are functions [state -> state].

    Conventions.
    - [int] values are [Z].  The integers the sketch computes (indices
      from -1 to 32, a count of at most 8, pixel coordinates below 160) are
      far inside the 16-bit [int] of the board, so no wrap-around is
      written.
    - [boolean current_state[ROWS][COLS]] is a list of rows, read and written
      by index with stdpp's lookup, insert and alter.
    - The Esplora board and its display are collaborators.  What the sketch
      reads from the board on one pass of [loop] is the record [input]; what
      it sends to the display is recorded in the field [tft] of the state
      (the pen last chosen by [setColor] and the rectangles drawn, newest
      first).  [delay] only spends time and leaves no trace in the state. *)

From Stdlib Require Import ZArith List Bool Lia QArith.
From stdpp Require Import base list.
Import ListNotations.

#[local] Open Scope Z_scope.

(* ===================================================================== *)
(** ** Constants and the grid *)
(* ===================================================================== *)

Definition COLS : Z := 32.
Definition ROWS : Z := 32.

(** The levels returned by [Esplora.readButton] and
    [Esplora.readJoystickButton]: a pressed button reads [LOW]. *)
Inductive level : Type := LOW | HIGH.

Definition level_eqb (a b : level) : bool :=
  match a, b with
  | LOW, LOW | HIGH, HIGH => true
  | _, _ => false
  end.

Abbreviation grid := (list (list bool)).

(** A grid has the shape of the C array when it has [ROWS] rows of [COLS]
    cells. *)
Definition wf_grid (g : grid) : Prop :=
  length g = Z.to_nat ROWS /\ Forall (fun row => length row = Z.to_nat COLS) g.

(** The coordinates of the cells of the array. *)
Definition in_grid (r c : Z) : Prop := 0 <= r < ROWS /\ 0 <= c < COLS.

(** [g[y][x]] as an rvalue.  The sketch only indexes inside the array (see
    [neighbour_cells_in_grid]); outside of it the C read is undefined and the model
    answers [false]. *)
Definition read (g : grid) (y x : Z) : bool :=
  if (0 <=? y) && (0 <=? x)
  then match g !! Z.to_nat y with
       | Some row => default false (row !! Z.to_nat x)
       | None => false
       end
  else false.

(** [g[r][c] = v].  Outside of the array the model leaves the grid as it
    is. *)
Definition write (g : grid) (r c : Z) (v : bool) : grid :=
  if (0 <=? r) && (0 <=? c)
  then alter (fun row => <[Z.to_nat c := v]> row) (Z.to_nat r) g
  else g.

(* ===================================================================== *)
(** ** Counting loops *)
(* ===================================================================== *)

(** [for (int i = lo; i < hi; i++) body], as a state transformer. *)
Fixpoint for_from {A : Type} (n : nat) (i : Z) (body : Z -> A -> A) (a : A) : A :=
  match n with
  | O => a
  | S n' => for_from n' (i + 1) body (body i a)
  end.

Definition for_loop {A : Type} (lo hi : Z) (body : Z -> A -> A) (a : A) : A :=
  for_from (Z.to_nat (hi - lo)) lo body a.

(* ===================================================================== *)
(** ** The display and the program state *)
(* ===================================================================== *)

Definition rgb : Type := Z * Z * Z.

(** One [EsploraTFT.rect x y w h], with the pen it was drawn with. *)
Record rect_cmd : Type := RectCmd {
  rc_pen : rgb; rc_x : Z; rc_y : Z; rc_w : Z; rc_h : Z
}.

(** [setColor] always gives stroke and fill the same colour, so one pen
    stands for both. *)
Record display : Type := Display {
  pen : rgb;
  rects : list rect_cmd
}.

Record state : Type := State {
  current_state : grid;
  play : bool;
  lastR : Z;
  lastC : Z;
  lastJoystickButton : level;
  tft : display
}.

Definition set_current_state (g : grid) (s : state) : state :=
  State g (play s) (lastR s) (lastC s) (lastJoystickButton s) (tft s).
Definition set_play (b : bool) (s : state) : state :=
  State (current_state s) b (lastR s) (lastC s) (lastJoystickButton s) (tft s).
Definition set_lastR (r : Z) (s : state) : state :=
  State (current_state s) (play s) r (lastC s) (lastJoystickButton s) (tft s).
Definition set_lastC (c : Z) (s : state) : state :=
  State (current_state s) (play s) (lastR s) c (lastJoystickButton s) (tft s).
Definition set_lastJoystickButton (l : level) (s : state) : state :=
  State (current_state s) (play s) (lastR s) (lastC s) l (tft s).
Definition set_tft (d : display) (s : state) : state :=
  State (current_state s) (play s) (lastR s) (lastC s) (lastJoystickButton s) d.

(** [setColor]: green for a live cell under the cursor, black for a live
    cell, orange for a dead cell under the cursor, white for a dead cell. *)
Definition setColor (value highlighted : bool) (d : display) : display :=
  if value && highlighted then Display (0, 204, 0) (rects d)
  else if value && negb highlighted then Display (0, 0, 0) (rects d)
  else if highlighted then Display (255, 153, 51) (rects d)
  else Display (255, 255, 255) (rects d).

Definition rect (x y w h : Z) (d : display) : display :=
  Display (pen d) (RectCmd (pen d) x y w h :: rects d).

(** The two display calls that follow every change of a cell. *)
Definition draw_cell (value highlighted : bool) (r c : Z) (d : display) : display :=
  rect (c * 5) (r * 4) 5 4 (setColor value highlighted d).

(* ===================================================================== *)
(** ** [next]: the transition to the following generation *)
(* ===================================================================== *)

(** The boundary substitution of [next]: [-1] becomes [31], [32] becomes
    [0]. *)
Definition wrap (y : Z) : Z :=
  if y =? -1 then 31 else if y =? 32 then 0 else y.

(** The two inner loops of [next] around cell [(r, c)], with the statement
    executed at each neighbour [(y, x)] left open. *)
Definition neighbour_scan {A : Type} (visit : Z -> Z -> A -> A) (r c : Z) (a : A) : A :=
  for_loop (-1) 2 (fun i a =>
    let y := wrap (r + i) in
    for_loop (-1) 2 (fun j a =>
      if negb (i =? 0) || negb (j =? 0)
      then let x := wrap (c + j) in visit y x a
      else a) a) a.

(** [liveNeighbors] when the inner loops are done. *)
Definition liveNeighbors (g : grid) (r c : Z) : Z :=
  neighbour_scan (fun y x n => if read g y x then n + 1 else n) r c 0.

(** The cells the inner loops read, in the order they read them. *)
Definition neighbour_cells (r c : Z) : list (Z * Z) :=
  neighbour_scan (fun y x l => l ++ [(y, x)]) r c [].

(** "apply the rules". *)
Definition apply_rules (alive : bool) (n : Z) : bool :=
  if alive && (2 <=? n) && (n <=? 3) then true
  else if negb alive && (n =? 3) then true
  else false.

(** The body of the two outer loops for cell [(r, c)]: it reads
    [current_state], writes the local array [next] and draws the cell. *)
Definition next_cell (s : state) (r c : Z) (acc : grid * display) : grid * display :=
  let n := liveNeighbors (current_state s) r c in
  let value := apply_rules (read (current_state s) r c) n in
  let highlighted := (r =? lastR s) && (c =? lastC s) in
  (write (fst acc) r c value, draw_cell value highlighted r c (snd acc)).

(** [next].  [scratch] is what the memory of the local array [next] holds
    when the function is entered (the array is not initialised); the final
    [memcpy] replaces the whole of [current_state]. *)
Definition next (scratch : grid) (s : state) : state :=
  let acc := for_loop 0 ROWS (fun r acc =>
               for_loop 0 COLS (fun c acc => next_cell s r c acc) acc)
               (scratch, tft s) in
  set_tft (snd acc) (set_current_state (fst acc) s).

(* ===================================================================== *)
(** ** The cursor *)
(* ===================================================================== *)

(** Every move redraws the cell the cursor leaves without highlight and the
    cell it reaches with highlight. *)
Definition unhighlight (s : state) : state :=
  set_tft (draw_cell (read (current_state s) (lastR s) (lastC s)) false
             (lastR s) (lastC s) (tft s)) s.
Definition highlight (s : state) : state :=
  set_tft (draw_cell (read (current_state s) (lastR s) (lastC s)) true
             (lastR s) (lastC s) (tft s)) s.

Definition moveCursorLeft (s : state) : state :=
  let s := unhighlight s in
  let s := set_lastC (if lastC s =? 0 then 31 else lastC s - 1) s in
  highlight s.

Definition moveCursorRight (s : state) : state :=
  let s := unhighlight s in
  let s := set_lastC (if lastC s =? 31 then 0 else lastC s + 1) s in
  highlight s.

Definition moveCursorUp (s : state) : state :=
  let s := unhighlight s in
  let s := set_lastR (if lastR s =? 31 then 0 else lastR s + 1) s in
  highlight s.

Definition moveCursorDown (s : state) : state :=
  let s := unhighlight s in
  let s := set_lastR (if lastR s =? 0 then 31 else lastR s - 1) s in
  highlight s.

Definition invertCurrentCell (s : state) : state :=
  let s := set_current_state
             (write (current_state s) (lastR s) (lastC s)
                    (negb (read (current_state s) (lastR s) (lastC s)))) s in
  highlight s.

(* ===================================================================== *)
(** ** [randomize]: a new random generation *)
(* ===================================================================== *)

(** [value = num >= slider]. *)
Definition seed_value (num slider : Z) : bool := slider <=? num.

(** The body of the two loops of [randomize] for cell [(r, c)].  [draw k]
    is what the [k]-th call of [random(1, 100)] returns, counted from the
    entry of [randomize]; the counter travels with the state. *)
Definition randomize_cell (slider : Z) (draw : nat -> Z) (r c : Z)
    (acc : state * nat) : state * nat :=
  let s := fst acc in
  let num := draw (snd acc) in
  let value := seed_value num slider in
  let s := set_current_state (write (current_state s) r c value) s in
  let highlighted := (r =? lastR s) && (c =? lastC s) in
  (set_tft (draw_cell value highlighted r c (tft s)) s, S (snd acc)).

(** [randomize].  [slider] is the value of the local of that name, that is
    [map(Esplora.readSlider(), 0, 1023, 0, 100)]. *)
Definition randomize (slider : Z) (draw : nat -> Z) (s : state) : state :=
  fst (for_loop 0 ROWS (fun r acc =>
         for_loop 0 COLS (fun c acc => randomize_cell slider draw r c acc) acc)
         (s, O)).

(** The values [random(1, 100)] can return: the upper bound is excluded. *)
Definition random_range : list Z := List.map Z.of_nat (seq 1 99).

(** Among the values [random(1, 100)] can return, how many make a cell
    alive for a given value of [slider], and which fraction of them. *)
Definition alive_draws (slider : Z) : Z :=
  Z.of_nat (length (List.filter (fun num => seed_value num slider) random_range)).

Definition alive_fraction (slider : Z) : Q :=
  Qmake (alive_draws slider) 99.

(** The fraction of live cells the specification states for a density. *)
Definition stated_fraction (slider : Z) : Q := Qmake (100 - slider) 100.

(* ===================================================================== *)
(** ** [setup] and [loop] *)
(* ===================================================================== *)

(** What one pass of [loop] takes from outside the globals of the sketch:
    the readings of the board, and, for the calls of [randomize] and [next]
    it may make, the mapped slider value and the draws of [random], and the
    contents of the memory where [next] puts its local array. *)
Record input : Type := Input {
  joyX : Z;
  joyY : Z;
  joystickButton : level;
  switch_up : level;
  switch_down : level;
  switch_right : level;
  switch_left : level;
  slider : Z;
  draws : nat -> Z;
  scratch : grid
}.

(** The globals as the C++ run time initialises them. *)
Definition dead_grid : grid :=
  replicate (Z.to_nat ROWS) (replicate (Z.to_nat COLS) false).

Definition power_on : state :=
  State dead_grid false 0 0 HIGH (Display (0, 0, 0) []).

(** [EsploraTFT.background(255, 255, 255)] paints the whole screen. *)
Definition background (c : rgb) (d : display) : display :=
  Display (pen d) [RectCmd c 0 0 160 128].

Definition setup (slider : Z) (draw : nat -> Z) : state :=
  randomize slider draw (set_tft (background (255, 255, 255) (tft power_on)) power_on).

(** The joystick part of [loop]. *)
Definition move_stage (inp : input) (s : state) : state :=
  let s := if 256 <? joyX inp then moveCursorLeft s
           else if joyX inp <? -256 then moveCursorRight s
           else s in
  if joyY inp <? -256 then moveCursorDown s
  else if 256 <? joyY inp then moveCursorUp s
  else s.

(** The branch of the [if ... else if] chain over the buttons that one pass
    of [loop] takes. *)
Inductive branch : Type :=
  BrRandomize | BrPause | BrPlay | BrAdvance | BrInvert | BrNone.

Definition button_branch (inp : input) (s : state) : branch :=
  if level_eqb (switch_up inp) LOW then BrRandomize
  else if level_eqb (switch_down inp) LOW then BrPause
  else if level_eqb (switch_right inp) LOW then BrPlay
  else if level_eqb (switch_left inp) LOW then BrAdvance
  else if level_eqb (joystickButton inp) LOW
          && level_eqb (lastJoystickButton s) HIGH then BrInvert
  else BrNone.

(** The body of the branch taken; the second component is the local
    [advance]. *)
Definition button_stage (inp : input) (s : state) : state * bool :=
  match button_branch inp s with
  | BrRandomize => (randomize (slider inp) (draws inp) s, false)
  | BrPause => (set_play false s, false)
  | BrPlay => (set_play true s, false)
  | BrAdvance => (s, true)
  | BrInvert => (invertCurrentCell s, false)
  | BrNone => (s, false)
  end.

Definition advance_stage (inp : input) (sa : state * bool) : state :=
  if snd sa || play (fst sa) then next (scratch inp) (fst sa) else fst sa.

Definition loop (inp : input) (s : state) : state :=
  let s := move_stage inp s in
  let s := advance_stage inp (button_stage inp s) in
  set_lastJoystickButton (joystickButton inp) s.

(** The sketch after [setup] and one pass of [loop] per element of
    [inps]. *)
Definition run (inps : list input) (s : state) : state :=
  fold_left (fun s inp => loop inp s) inps s.

(* ===================================================================== *)
(** ** The rule and the reference transition, in the words of the
       specification *)
(* ===================================================================== *)

(** The eight offsets [{-1,0,1}^2] without [(0,0)]. *)
Definition offsets8 : list (Z * Z) :=
  [(-1, -1); (-1, 0); (-1, 1); (0, -1); (0, 1); (1, -1); (1, 0); (1, 1)].

(** The toroidal neighbours of [(r, c)]: coordinates modulo the
    dimensions. *)
Definition torus_neighbours (r c : Z) : list (Z * Z) :=
  List.map (fun d => ((r + fst d) mod ROWS, (c + snd d) mod COLS)) offsets8.

Definition torus_count (g : grid) (r c : Z) : Z :=
  Z.of_nat (length (List.filter (fun p => read g (fst p) (snd p)) (torus_neighbours r c))).

(** A cell of generation N+1, computed from generation N alone. *)
Definition snapshot_cell (g : grid) (r c : Z) : bool :=
  let n := torus_count g r c in
  (read g r c && ((n =? 2) || (n =? 3))) || (negb (read g r c) && (n =? 3)).

(** The grid whose cell [(r, c)] is [f r c]. *)
Definition tabulate (f : Z -> Z -> bool) : grid :=
  List.map (fun r => List.map (fun c => f (Z.of_nat r) (Z.of_nat c)) (seq 0 (Z.to_nat COLS)))
           (seq 0 (Z.to_nat ROWS)).

(** Every cell from the snapshot, then the whole grid at once. *)
Definition reference_next (g : grid) : grid := tabulate (snapshot_cell g).

(** The cell values [randomize] is specified to produce: cell [(r, c)] gets
    the draw number [COLS * r + c]. *)
Definition seeded_grid (slider : Z) (draw : nat -> Z) : grid :=
  tabulate (fun r c => seed_value (draw (Z.to_nat (COLS * r + c))) slider).

(** The operations of the cursor model, and a run of them. *)
Inductive cursor_op : Type := OpLeft | OpRight | OpUp | OpDown | OpToggle.

Definition run_op (op : cursor_op) (s : state) : state :=
  match op with
  | OpLeft => moveCursorLeft s
  | OpRight => moveCursorRight s
  | OpUp => moveCursorUp s
  | OpDown => moveCursorDown s
  | OpToggle => invertCurrentCell s
  end.

Definition run_ops (ops : list cursor_op) (s : state) : state :=
  fold_left (fun s op => run_op op s) ops s.

Definition cursor_in_bounds (s : state) : Prop :=
  0 <= lastR s < ROWS /\ 0 <= lastC s < COLS.

(** Whether a pass of [loop] calls [invertCurrentCell], and in how many
    passes of a run it does. *)
Definition toggles (inp : input) (s : state) : bool :=
  match button_branch inp (move_stage inp s) with
  | BrInvert => true
  | _ => false
  end.

Fixpoint toggle_count (inps : list input) (s : state) : nat :=
  match inps with
  | [] => O
  | inp :: rest =>
      ((if toggles inp s then 1 else 0) + toggle_count rest (loop inp s))%nat
  end.

(** The five actions of the button chain, whether the input of an action is
    active on a pass, and the action the priority order selects. *)
Inductive action : Type := Reset | Pause | Play | SingleStep | CellToggle.

Definition priority : list action := [Reset; Pause; Play; SingleStep; CellToggle].

Definition active (inp : input) (s : state) (a : action) : bool :=
  match a with
  | Reset => level_eqb (switch_up inp) LOW
  | Pause => level_eqb (switch_down inp) LOW
  | Play => level_eqb (switch_right inp) LOW
  | SingleStep => level_eqb (switch_left inp) LOW
  | CellToggle => level_eqb (joystickButton inp) LOW
                  && level_eqb (lastJoystickButton s) HIGH
  end.

Definition selected (inp : input) (s : state) : option action :=
  List.find (active inp s) priority.

Definition action_of_branch (b : branch) : option action :=
  match b with
  | BrRandomize => Some Reset
  | BrPause => Some Pause
  | BrPlay => Some Play
  | BrAdvance => Some SingleStep
  | BrInvert => Some CellToggle
  | BrNone => None
  end.

(** The effect of one action on the globals and on the local [advance]. *)
Definition apply_action (inp : input) (a : option action) (s : state) : state * bool :=
  match a with
  | Some Reset => (randomize (slider inp) (draws inp) s, false)
  | Some Pause => (set_play false s, false)
  | Some Play => (set_play true s, false)
  | Some SingleStep => (s, true)
  | Some CellToggle => (invertCurrentCell s, false)
  | None => (s, false)
  end.

(** Position [(r', c')] comes before [(r, c)] in the order of the two outer
    loops of [next] and of [randomize]. *)
Definition before (r' c' r c : Z) : Prop := r' < r \/ (r' = r /\ c' < c).

(** No switch is pressed; the joystick is inside its dead zone; both. *)
Definition buttons_idle (inp : input) : Prop :=
  switch_up inp = HIGH /\ switch_down inp = HIGH /\
  switch_right inp = HIGH /\ switch_left inp = HIGH.

Definition at_rest (inp : input) : Prop :=
  -256 <= joyX inp <= 256 /\ -256 <= joyY inp <= 256.

Definition quiet (inp : input) : Prop := at_rest inp /\ buttons_idle inp.

(** The joystick button reads pressed on every pass. *)
Definition held (inps : list input) : Prop :=
  Forall (fun inp => joystickButton inp = LOW) inps.

(* ===================================================================== *)
(** ** What the display shows, and other notions used to state properties
       of the sketch *)
(* ===================================================================== *)

(** The colour [setColor] chooses; it does not depend on the display. *)
Definition colour_of (value highlighted : bool) : rgb :=
  pen (setColor value highlighted (Display (0, 0, 0) [])).

(** The rectangle of a command contains the 5 x 4 pixels of cell
    [(r, c)]. *)
Definition covers (r c : Z) (cmd : rect_cmd) : bool :=
  (rc_x cmd <=? c * 5) && (c * 5 + 5 <=? rc_x cmd + rc_w cmd)
  && (rc_y cmd <=? r * 4) && (r * 4 + 4 <=? rc_y cmd + rc_h cmd).

(** The colour of cell [(r, c)] on the screen: the pen of the newest
    rectangle drawn over it. *)
Definition shown (d : display) (r c : Z) : option rgb :=
  option_map rc_pen (List.find (covers r c) (rects d)).

(** The screen shows every cell with the colour of its value and of whether
    the cursor is on it. *)
Definition in_sync (s : state) : Prop :=
  forall r c, in_grid r c ->
    shown (tft s) r c
    = Some (colour_of (read (current_state s) r c) ((r =? lastR s) && (c =? lastC s))).

(** A rectangle inside the 160 x 128 screen. *)
Definition on_screen (cmd : rect_cmd) : Prop :=
  0 <= rc_x cmd /\ rc_x cmd + rc_w cmd <= 160 /\
  0 <= rc_y cmd /\ rc_y cmd + rc_h cmd <= 128.

(** What holds of the globals between two passes of [loop]. *)
Definition consistent (s : state) : Prop :=
  wf_grid (current_state s) /\ cursor_in_bounds s /\ in_sync s /\
  Forall on_screen (rects (tft s)).

(** Every pass finds memory of the right shape for the local array of
    [next]. *)
Definition scratch_ok (inps : list input) : Prop :=
  Forall (fun inp => wf_grid (scratch inp)) inps.

(** The grid moved on the torus: cell [(r, c)] of the result is cell
    [(r + a, c + b)] of [g]. *)
Definition translate (a b : Z) (g : grid) : grid :=
  tabulate (fun r c => read g ((r + a) mod ROWS) ((c + b) mod COLS)).

(** [next] called once per element of [scrs], each call finding its local
    array in the state given by the element. *)
Definition nexts (scrs : list grid) (s : state) : state :=
  fold_left (fun s scr => next scr s) scrs s.

(** A 2 x 2 block of live cells. *)
Definition block : grid :=
  write (write (write (write dead_grid 0 0 true) 0 1 true) 1 0 true) 1 1 true.

Definition live_grid : grid :=
  replicate (Z.to_nat ROWS) (replicate (Z.to_nat COLS) true).

(** Passes on which no switch is pressed and the joystick button reads
    released. *)
Definition hands_off (inp : input) : Prop :=
  buttons_idle inp /\ joystickButton inp = HIGH.

(* ===================================================================== *)
(** ** Sample data *)
(* ===================================================================== *)

(** Three live cells in row 16, and three live cells in column 17. *)
Definition row_blinker : grid :=
  write (write (write dead_grid 16 16 true) 16 17 true) 16 18 true.

Definition column_blinker : grid :=
  write (write (write dead_grid 15 17 true) 16 17 true) 17 17 true.

(** The state right after power-on with a given grid. *)
Definition with_grid (g : grid) : state := set_current_state g power_on.

(** A pass of [loop] with the joystick at rest and the given levels of the
    joystick button and of the up, down, right and left switches. *)
Definition levels (joy up down right_ left_ : level) : input :=
  Input 0 0 joy up down right_ left_ 50 (fun _ => 50) dead_grid.

Definition pressed : input := levels LOW HIGH HIGH HIGH HIGH.

(* ===================================================================== *)
(** ** Loops: the invariant rule *)
(* ===================================================================== *)

Lemma for_from_inv {A : Type} (P : Z -> A -> Prop) (body : Z -> A -> A) (n : nat) :
  forall (i : Z) (a : A),
    P i a ->
    (forall k x, i <= k < i + Z.of_nat n -> P k x -> P (k + 1) (body k x)) ->
    P (i + Z.of_nat n) (for_from n i body a).
Proof.
  induction n as [|n IH]; intros i a H0 Hstep; cbn [for_from].
  - replace (i + Z.of_nat 0) with i by lia. exact H0.
  - replace (i + Z.of_nat (S n)) with ((i + 1) + Z.of_nat n) by lia.
    apply IH.
    + apply Hstep; [lia | exact H0].
    + intros k x Hk. apply Hstep. lia.
Qed.

Lemma for_loop_inv {A : Type} (P : Z -> A -> Prop) (lo hi : Z) (body : Z -> A -> A) (a : A) :
  lo <= hi ->
  P lo a ->
  (forall k x, lo <= k < hi -> P k x -> P (k + 1) (body k x)) ->
  P hi (for_loop lo hi body a).
Proof.
  intros Hle H0 Hstep. unfold for_loop.
  replace hi with (lo + Z.of_nat (Z.to_nat (hi - lo))) at 1 by lia.
  apply for_from_inv; [exact H0 |].
  intros k x Hk. apply Hstep. lia.
Qed.

(* ===================================================================== *)
(** ** Reading and writing cells *)
(* ===================================================================== *)

Lemma wf_grid_lookup (g : grid) (i : nat) :
  wf_grid g -> (i < Z.to_nat ROWS)%nat ->
  exists row, g !! i = Some row /\ length row = Z.to_nat COLS.
Proof.
  intros [Hlen Hrows] Hi.
  destruct (lookup_lt_is_Some_2 g i) as [row Hrow]; [lia |].
  exists row. split; [exact Hrow |].
  rewrite Forall_lookup in Hrows. exact (Hrows i row Hrow).
Qed.

Lemma wf_grid_write (g : grid) (r c : Z) (v : bool) :
  wf_grid g -> wf_grid (write g r c v).
Proof.
  intros [Hlen Hrows]. unfold write.
  destruct ((0 <=? r) && (0 <=? c)); [| split; assumption].
  split.
  - rewrite length_alter. exact Hlen.
  - rewrite Forall_lookup in Hrows. rewrite Forall_lookup. intros i row Hi.
    rewrite list_lookup_alter in Hi.
    destruct (decide (Z.to_nat r = i)) as [->|Hne].
    + destruct (g !! i) as [row0|] eqn:Hg; [| discriminate].
      injection Hi as <-. rewrite length_insert. exact (Hrows i row0 Hg).
    + exact (Hrows i row Hi).
Qed.

Lemma read_write_eq (g : grid) (r c : Z) (v : bool) :
  wf_grid g -> in_grid r c -> read (write g r c v) r c = v.
Proof.
  intros Hwf [Hr Hc]. unfold ROWS in Hr. unfold COLS in Hc.
  destruct (wf_grid_lookup g (Z.to_nat r) Hwf) as (row & Hrow & Hlen);
    [unfold ROWS; lia |].
  unfold read, write.
  replace ((0 <=? r) && (0 <=? c)) with true
    by (symmetry; apply andb_true_iff; split; apply Z.leb_le; lia).
  rewrite list_lookup_alter_eq, Hrow. cbn.
  rewrite list_lookup_insert_eq; [reflexivity |].
  rewrite Hlen. unfold COLS. lia.
Qed.

Lemma read_write_ne (g : grid) (r c r' c' : Z) (v : bool) :
  (r', c') <> (r, c) -> read (write g r c v) r' c' = read g r' c'.
Proof.
  intros Hne. unfold read, write.
  destruct ((0 <=? r') && (0 <=? c')) eqn:H'; [| reflexivity].
  destruct ((0 <=? r) && (0 <=? c)) eqn:H; [| reflexivity].
  apply andb_true_iff in H' as [Hr' Hc']. apply andb_true_iff in H as [Hr Hc].
  apply Z.leb_le in Hr', Hc', Hr, Hc.
  rewrite list_lookup_alter.
  destruct (decide (Z.to_nat r = Z.to_nat r')) as [Heq|Hd]; [| reflexivity].
  assert (r = r') by lia. subst r'.
  destruct (g !! Z.to_nat r) as [row|]; [| reflexivity]. cbn.
  rewrite list_lookup_insert_ne; [reflexivity |].
  intros Hcc. apply Hne. f_equal. lia.
Qed.

(** Two grids of the shape of the array with the same cells are the same
    grid. *)
Lemma grid_ext (g1 g2 : grid) :
  wf_grid g1 -> wf_grid g2 ->
  (forall r c, in_grid r c -> read g1 r c = read g2 r c) ->
  g1 = g2.
Proof.
  intros Hwf1 Hwf2 Hcells.
  apply list_eq_same_length with (Z.to_nat ROWS);
    [exact (proj1 Hwf2) | exact (proj1 Hwf1) |].
  intros i row1 row2 Hi H1 H2.
  destruct (wf_grid_lookup g1 i Hwf1 Hi) as (row1' & H1' & Hlen1).
  destruct (wf_grid_lookup g2 i Hwf2 Hi) as (row2' & H2' & Hlen2).
  rewrite H1 in H1'. injection H1' as <-.
  rewrite H2 in H2'. injection H2' as <-.
  apply list_eq_same_length with (Z.to_nat COLS); [exact Hlen2 | exact Hlen1 |].
  intros j b1 b2 Hj Hb1 Hb2.
  assert (Hin : in_grid (Z.of_nat i) (Z.of_nat j)).
  { unfold in_grid. lia. }
  specialize (Hcells _ _ Hin). unfold read in Hcells.
  replace ((0 <=? Z.of_nat i) && (0 <=? Z.of_nat j)) with true in Hcells
    by (symmetry; apply andb_true_iff; split; apply Z.leb_le; lia).
  rewrite !Nat2Z.id, H1, H2, Hb1, Hb2 in Hcells. exact Hcells.
Qed.

Lemma wf_tabulate (f : Z -> Z -> bool) : wf_grid (tabulate f).
Proof.
  unfold wf_grid, tabulate. split.
  - rewrite length_map, length_seq. reflexivity.
  - apply Forall_forall. intros row Hrow.
    apply list_elem_of_In, in_map_iff in Hrow as (i & <- & _).
    rewrite length_map, length_seq. reflexivity.
Qed.

Lemma read_tabulate (f : Z -> Z -> bool) (r c : Z) :
  in_grid r c -> read (tabulate f) r c = f r c.
Proof.
  intros [Hr Hc]. unfold read, tabulate.
  replace ((0 <=? r) && (0 <=? c)) with true
    by (symmetry; apply andb_true_iff; split; apply Z.leb_le; lia).
  rewrite list_lookup_fmap, lookup_seq_lt by lia. cbn.
  rewrite list_lookup_fmap, lookup_seq_lt by lia. cbn.
  rewrite !Z2Nat.id by lia. reflexivity.
Qed.

Lemma wf_dead_grid : wf_grid dead_grid.
Proof.
  unfold wf_grid, dead_grid. split.
  - apply length_replicate.
  - apply Forall_replicate. apply length_replicate.
Qed.

(* ===================================================================== *)
(** ** [next]: the neighbour count and the contents of the local array *)
(* ===================================================================== *)

Lemma wrap_mod (y : Z) : -1 <= y <= 32 -> wrap y = y mod 32.
Proof.
  intros Hy. unfold wrap.
  destruct (Z.eqb_spec y (-1)) as [->|H1]; [reflexivity |].
  destruct (Z.eqb_spec y 32) as [->|H2]; [reflexivity |].
  symmetry. apply Z.mod_small. lia.
Qed.

(** Every index [next] computes for [current_state] is inside the array. *)
Lemma wrap_in_range (r i : Z) :
  0 <= r < 32 -> -1 <= i <= 1 -> 0 <= wrap (r + i) < 32.
Proof.
  intros Hr Hi. unfold wrap.
  destruct (Z.eqb_spec (r + i) (-1)); [lia |].
  destruct (Z.eqb_spec (r + i) 32); lia.
Qed.

(** The eight visits of the inner loops, written out. *)
Lemma neighbour_scan_unfold {A : Type} (visit : Z -> Z -> A -> A) (r c : Z) (a : A) :
  neighbour_scan visit r c a =
  visit (wrap (r + 1)) (wrap (c + 1))
   (visit (wrap (r + 1)) (wrap (c + 0))
    (visit (wrap (r + 1)) (wrap (c + -1))
     (visit (wrap (r + 0)) (wrap (c + 1))
      (visit (wrap (r + 0)) (wrap (c + -1))
       (visit (wrap (r + -1)) (wrap (c + 1))
        (visit (wrap (r + -1)) (wrap (c + 0))
         (visit (wrap (r + -1)) (wrap (c + -1)) a))))))).
Proof. reflexivity. Qed.

Lemma neighbour_cells_torus (r c : Z) :
  in_grid r c -> neighbour_cells r c = torus_neighbours r c.
Proof.
  intros [Hr Hc]. unfold ROWS in Hr. unfold COLS in Hc.
  unfold neighbour_cells. rewrite neighbour_scan_unfold.
  rewrite !wrap_mod by lia. reflexivity.
Qed.

(** Every cell [next] reads around a cell of the grid is a cell of the
    grid. *)
Lemma neighbour_cells_in_grid (r c : Z) :
  in_grid r c -> Forall (fun p => in_grid (fst p) (snd p)) (neighbour_cells r c).
Proof.
  intros [Hr Hc]. unfold ROWS in Hr. unfold COLS in Hc.
  unfold neighbour_cells. rewrite neighbour_scan_unfold. cbn [app].
  repeat constructor; cbn [fst snd]; unfold ROWS, COLS;
    apply wrap_in_range; lia.
Qed.

(** [liveNeighbors] is the number of live cells among the cells read. *)
Lemma liveNeighbors_cells (g : grid) (r c : Z) :
  liveNeighbors g r c =
  Z.of_nat (length (List.filter (fun p => read g (fst p) (snd p)) (neighbour_cells r c))).
Proof.
  unfold liveNeighbors, neighbour_cells. rewrite !neighbour_scan_unfold.
  cbn [app List.filter fst snd].
  repeat match goal with
         | |- context [read g ?y ?x] => destruct (read g y x)
         end; reflexivity.
Qed.

Lemma liveNeighbors_torus (g : grid) (r c : Z) :
  in_grid r c -> liveNeighbors g r c = torus_count g r c.
Proof.
  intros Hin. unfold torus_count.
  rewrite <- neighbour_cells_torus by exact Hin. apply liveNeighbors_cells.
Qed.

Lemma apply_rules_snapshot (g : grid) (r c : Z) :
  in_grid r c ->
  apply_rules (read g r c) (liveNeighbors g r c) = snapshot_cell g r c.
Proof.
  intros Hin. unfold apply_rules, snapshot_cell. cbv zeta.
  rewrite (liveNeighbors_torus g r c Hin).
  destruct (read g r c); cbn;
    destruct (Z.leb_spec 2 (torus_count g r c));
    destruct (Z.leb_spec (torus_count g r c) 3);
    destruct (Z.eqb_spec (torus_count g r c) 2);
    destruct (Z.eqb_spec (torus_count g r c) 3); cbn; try reflexivity; lia.
Qed.

(** When the outer loops of [next] are done, the local array has the shape
    it was declared with and holds the new value of every cell, whatever it
    held at the start. *)
Lemma next_buffer (scratch : grid) (s : state) :
  wf_grid scratch ->
  let acc := for_loop 0 ROWS (fun r acc =>
               for_loop 0 COLS (fun c acc => next_cell s r c acc) acc)
               (scratch, tft s) in
  wf_grid (fst acc) /\
  forall r c, in_grid r c ->
    read (fst acc) r c =
    apply_rules (read (current_state s) r c) (liveNeighbors (current_state s) r c).
Proof.
  intros Hwf acc. subst acc.
  set (V := fun r c =>
    apply_rules (read (current_state s) r c) (liveNeighbors (current_state s) r c)).
  set (Q := fun (r : Z) (acc : grid * display) =>
    wf_grid (fst acc) /\
    forall r' c', in_grid r' c' -> r' < r -> read (fst acc) r' c' = V r' c').
  assert (HQ : Q ROWS (for_loop 0 ROWS (fun r acc =>
               for_loop 0 COLS (fun c acc => next_cell s r c acc) acc)
               (scratch, tft s))).
  { apply for_loop_inv.
    - unfold ROWS. lia.
    - split; [exact Hwf |]. intros r' c' [Hr' _] Hlt. lia.
    - intros r acc Hr [Hwfa Hdone].
      set (P := fun (c : Z) (acc : grid * display) =>
        wf_grid (fst acc) /\
        forall r' c', in_grid r' c' -> before r' c' r c ->
                      read (fst acc) r' c' = V r' c').
      assert (HP : P COLS (for_loop 0 COLS (fun c acc => next_cell s r c acc) acc)).
      { apply for_loop_inv.
        - unfold COLS. lia.
        - split; [exact Hwfa |]. intros r' c' Hin [Hlt | [-> Hc']].
          + apply Hdone; assumption.
          + destruct Hin as [_ Hc]. lia.
        - intros c x Hc [Hwfx Hx]. split; cbn [next_cell fst].
          + apply wf_grid_write. exact Hwfx.
          + intros r' c' Hin Hbefore.
            destruct (decide ((r', c') = (r, c))) as [Heq | Hne].
            * injection Heq as -> ->. apply read_write_eq; assumption.
            * rewrite read_write_ne by exact Hne. apply Hx; [exact Hin |].
              destruct Hbefore as [Hlt | [-> Hlt]]; [left; exact Hlt |].
              right. split; [reflexivity |].
              assert (c' <> c) by congruence. lia. }
      destruct HP as [HwfP HcellsP]. split; [exact HwfP |].
      intros r' c' Hin Hlt. apply HcellsP; [exact Hin |].
      destruct Hin as [_ Hc']. unfold before. lia. }
  destruct HQ as [HwfQ HcellsQ]. split; [exact HwfQ |].
  intros r c Hin. apply HcellsQ; [exact Hin |]. destruct Hin as [Hr _]. lia.
Qed.

(** The grid [next] installs is the reference transition of the grid it
    started from. *)
Lemma next_grid (scratch : grid) (s : state) :
  wf_grid scratch ->
  current_state (next scratch s) = reference_next (current_state s).
Proof.
  intros Hwf. destruct (next_buffer scratch s Hwf) as [Hwfn Hcells].
  unfold next. cbn [set_tft set_current_state current_state].
  apply grid_ext; [exact Hwfn | apply wf_tabulate |].
  intros r c Hin. rewrite Hcells by exact Hin.
  unfold reference_next. rewrite read_tabulate by exact Hin.
  apply apply_rules_snapshot. exact Hin.
Qed.

Lemma next_globals (scratch : grid) (s : state) :
  play (next scratch s) = play s /\
  lastR (next scratch s) = lastR s /\
  lastC (next scratch s) = lastC s /\
  lastJoystickButton (next scratch s) = lastJoystickButton s.
Proof. repeat split. Qed.

(* ===================================================================== *)
(** ** [randomize]: the draws reach the cells in row-major order *)
(* ===================================================================== *)

Lemma randomize_loops (slider : Z) (draw : nat -> Z) (s : state) :
  wf_grid (current_state s) ->
  let acc := for_loop 0 ROWS (fun r acc =>
               for_loop 0 COLS (fun c acc => randomize_cell slider draw r c acc) acc)
               (s, O) in
  (wf_grid (current_state (fst acc)) /\
   forall r c, in_grid r c ->
     read (current_state (fst acc)) r c =
     seed_value (draw (Z.to_nat (COLS * r + c))) slider) /\
  play (fst acc) = play s /\ lastR (fst acc) = lastR s /\
  lastC (fst acc) = lastC s /\
  lastJoystickButton (fst acc) = lastJoystickButton s.
Proof.
  intros Hwf acc. subst acc.
  set (V := fun r c => seed_value (draw (Z.to_nat (COLS * r + c))) slider).
  set (K := fun (acc : state * nat) =>
    play (fst acc) = play s /\ lastR (fst acc) = lastR s /\
    lastC (fst acc) = lastC s /\
    lastJoystickButton (fst acc) = lastJoystickButton s).
  set (Q := fun (r : Z) (acc : state * nat) =>
    (wf_grid (current_state (fst acc)) /\ snd acc = Z.to_nat (COLS * r) /\
     forall r' c', in_grid r' c' -> r' < r ->
                   read (current_state (fst acc)) r' c' = V r' c') /\ K acc).
  assert (HQ : Q ROWS (for_loop 0 ROWS (fun r acc =>
               for_loop 0 COLS (fun c acc => randomize_cell slider draw r c acc) acc)
               (s, O))).
  { apply for_loop_inv.
    - unfold ROWS. lia.
    - split; [| repeat split]. split; [exact Hwf |]. split; [reflexivity |].
      intros r' c' [Hr' _] Hlt. lia.
    - intros r acc Hr [(Hwfa & Hk & Hdone) HK].
      set (P := fun (c : Z) (acc : state * nat) =>
        (wf_grid (current_state (fst acc)) /\ snd acc = Z.to_nat (COLS * r + c) /\
         forall r' c', in_grid r' c' -> before r' c' r c ->
                       read (current_state (fst acc)) r' c' = V r' c') /\ K acc).
      assert (HP : P COLS (for_loop 0 COLS
                (fun c acc => randomize_cell slider draw r c acc) acc)).
      { apply for_loop_inv.
        - unfold COLS. lia.
        - split; [| exact HK]. split; [exact Hwfa |].
          split; [rewrite Hk; f_equal; lia |].
          intros r' c' Hin [Hlt | [-> Hc']].
          + apply Hdone; assumption.
          + destruct Hin as [_ Hc]. lia.
        - intros c x Hc [(Hwfx & Hkx & Hx) HKx].
          split; [| exact HKx]. cbn.
          split; [apply wf_grid_write; exact Hwfx |].
          split; [rewrite Hkx; unfold COLS in *; lia |].
          intros r' c' Hin Hbefore.
          destruct (decide ((r', c') = (r, c))) as [Heq | Hne].
          * injection Heq as -> ->. rewrite read_write_eq by assumption.
            unfold V. rewrite Hkx. reflexivity.
          * rewrite read_write_ne by exact Hne. apply Hx; [exact Hin |].
            destruct Hbefore as [Hlt | [-> Hlt]]; [left; exact Hlt |].
            right. split; [reflexivity |].
            assert (c' <> c) by congruence. lia. }
      destruct HP as [(HwfP & HkP & HcellsP) HKP]. split; [| exact HKP].
      split; [exact HwfP |]. split; [rewrite HkP; unfold COLS in *; f_equal; lia |].
      intros r' c' Hin Hlt. apply HcellsP; [exact Hin |].
      destruct Hin as [_ Hc']. unfold before. lia. }
  destruct HQ as [(HwfQ & _ & HcellsQ) HK]. split; [| exact HK].
  split; [exact HwfQ |].
  intros r c Hin. apply HcellsQ; [exact Hin |]. destruct Hin as [Hr _]. lia.
Qed.

Lemma randomize_grid (slider : Z) (draw : nat -> Z) (s : state) :
  wf_grid (current_state s) ->
  current_state (randomize slider draw s) = seeded_grid slider draw.
Proof.
  intros Hwf. destruct (randomize_loops slider draw s Hwf) as [[Hwfr Hcells] _].
  unfold randomize. apply grid_ext; [exact Hwfr | apply wf_tabulate |].
  intros r c Hin. rewrite Hcells by exact Hin.
  unfold seeded_grid. rewrite read_tabulate by exact Hin. reflexivity.
Qed.

Lemma randomize_globals (slider : Z) (draw : nat -> Z) (s : state) :
  wf_grid (current_state s) ->
  play (randomize slider draw s) = play s /\
  lastR (randomize slider draw s) = lastR s /\
  lastC (randomize slider draw s) = lastC s /\
  lastJoystickButton (randomize slider draw s) = lastJoystickButton s.
Proof.
  intros Hwf. destruct (randomize_loops slider draw s Hwf) as [_ HK]. exact HK.
Qed.

(* ===================================================================== *)
(** ** The transition engine *)
(* ===================================================================== *)

(** C1.  For every grid, [next] computes the next generation cell by cell:
    a cell is alive afterwards iff it was alive with 2 or 3 live toroidal
    neighbours, or dead with exactly 3; otherwise it is dead.  The count of
    the code is the count over the 8 offsets with coordinates taken modulo
    the dimensions, the substitution sends -1 to ROWS-1 and ROWS to 0, and
    the cells read for cell (0,0) include (ROWS-1, COLS-1), (ROWS-1, 0) and
    (0, COLS-1). *)
Theorem next_applies_life_rule (scratch : grid) (s : state) (r c : Z) :
  wf_grid scratch ->
  in_grid r c ->
  let g := current_state s in
  let g' := current_state (next scratch s) in
  let n := torus_count g r c in
  (read g' r c = true <->
     (read g r c = true /\ (n = 2 \/ n = 3)) \/ (read g r c = false /\ n = 3)) /\
  liveNeighbors g r c = n /\
  neighbour_cells r c = torus_neighbours r c /\
  (wrap (-1) = ROWS - 1 /\ wrap ROWS = 0 /\ wrap (-1) = COLS - 1 /\ wrap COLS = 0) /\
  (In (ROWS - 1, COLS - 1) (neighbour_cells 0 0) /\
   In (ROWS - 1, 0) (neighbour_cells 0 0) /\
   In (0, COLS - 1) (neighbour_cells 0 0)).
Proof.
  intros Hwf Hin g g' n.
  split; [| split; [| split; [| split]]].
  - subst g'. rewrite (next_grid scratch s Hwf).
    unfold reference_next. rewrite read_tabulate by exact Hin.
    unfold snapshot_cell. fold g. fold n. cbv zeta.
    destruct (read g r c); cbn.
    + rewrite orb_false_r, orb_true_iff, !Z.eqb_eq. split.
      * intros H. left. split; [reflexivity | exact H].
      * intros [[_ H] | [H _]]; [exact H | discriminate].
    + rewrite Z.eqb_eq. split.
      * intros H. right. split; [reflexivity | exact H].
      * intros [[H _] | [_ H]]; [discriminate | exact H].
  - apply liveNeighbors_torus. exact Hin.
  - apply neighbour_cells_torus. exact Hin.
  - repeat split.
  - repeat split; vm_compute; auto 10.
Qed.

Lemma next_applies_life_rule_witness :
  wf_grid dead_grid /\ in_grid 16 17 /\
  (read (current_state (next dead_grid (with_grid row_blinker))) 16 17 = true <->
     (read row_blinker 16 17 = true /\
      (torus_count row_blinker 16 17 = 2 \/ torus_count row_blinker 16 17 = 3)) \/
     (read row_blinker 16 17 = false /\ torus_count row_blinker 16 17 = 3)).
Proof.
  assert (Hwf : wf_grid dead_grid) by (split; [reflexivity | repeat constructor]).
  assert (Hin : in_grid 16 17) by (unfold in_grid, ROWS, COLS; lia).
  split; [exact Hwf |]. split; [exact Hin |].
  exact (proj1 (next_applies_life_rule dead_grid (with_grid row_blinker) 16 17 Hwf Hin)).
Defined.

(** C2.  The grid [next] installs is a function of the grid it starts from
    only: whatever the local array holds on entry and whatever the other
    globals are, it is the grid of the reference that computes every cell
    from a snapshot and commits the whole grid at once. *)
Theorem next_is_snapshot_transition (scratch1 scratch2 : grid) (s1 s2 : state) :
  wf_grid scratch1 ->
  wf_grid scratch2 ->
  current_state s1 = current_state s2 ->
  current_state (next scratch1 s1) = reference_next (current_state s1) /\
  current_state (next scratch1 s1) = current_state (next scratch2 s2).
Proof.
  intros Hwf1 Hwf2 Hsame.
  rewrite (next_grid scratch1 s1 Hwf1), (next_grid scratch2 s2 Hwf2), Hsame.
  split; reflexivity.
Qed.

Lemma next_is_snapshot_transition_witness :
  wf_grid dead_grid /\ wf_grid column_blinker /\
  current_state (with_grid row_blinker) = current_state (set_play true (with_grid row_blinker)) /\
  current_state (next dead_grid (with_grid row_blinker)) = reference_next row_blinker /\
  current_state (next dead_grid (with_grid row_blinker)) =
  current_state (next column_blinker (set_play true (with_grid row_blinker))).
Proof.
  assert (Hwf1 : wf_grid dead_grid) by (split; [reflexivity | repeat constructor]).
  assert (Hwf2 : wf_grid column_blinker) by (split; [reflexivity | repeat constructor]).
  split; [exact Hwf1 |]. split; [exact Hwf2 |]. split; [reflexivity |].
  exact (next_is_snapshot_transition dead_grid column_blinker
           (with_grid row_blinker) (set_play true (with_grid row_blinker))
           Hwf1 Hwf2 eq_refl).
Defined.

(** C9.  From the grid that is all dead except (16,16), (16,17), (16,18),
    one application of [next] gives the grid that is all dead except
    (15,17), (16,17), (17,17). *)
Theorem next_turns_row_blinker (scratch : grid) (s : state) :
  wf_grid scratch ->
  current_state s = row_blinker ->
  current_state (next scratch s) = column_blinker.
Proof.
  intros Hwf Hg. rewrite (next_grid scratch s Hwf), Hg.
  vm_compute. reflexivity.
Qed.

Lemma next_turns_row_blinker_witness :
  wf_grid row_blinker /\ current_state (with_grid row_blinker) = row_blinker /\
  current_state (next row_blinker (with_grid row_blinker)) = column_blinker.
Proof.
  assert (Hwf : wf_grid row_blinker) by (split; [reflexivity | repeat constructor]).
  split; [exact Hwf |]. split; [reflexivity |].
  exact (next_turns_row_blinker row_blinker (with_grid row_blinker) Hwf eq_refl).
Defined.

(* ===================================================================== *)
(** ** The seeding policy *)
(* ===================================================================== *)

(** C3.  For every density D in [0,100] and every sequence of draws in
    [1,99], [randomize] makes each cell alive iff its draw is >= D, the
    draws being taken in row-major order; with D = 100 no cell is alive. *)
Theorem randomize_seeds_by_threshold (D : Z) (draw : nat -> Z) (s : state) :
  0 <= D <= 100 ->
  (forall k, 1 <= draw k <= 99) ->
  wf_grid (current_state s) ->
  (forall r c, in_grid r c ->
     (read (current_state (randomize D draw s)) r c = true <->
      draw (Z.to_nat (COLS * r + c)) >= D)) /\
  (D = 100 -> current_state (randomize D draw s) = dead_grid).
Proof.
  intros HD Hdraw Hwf.
  pose proof (randomize_grid D draw s Hwf) as Hgrid.
  split.
  - intros r c Hin. rewrite Hgrid. unfold seeded_grid.
    rewrite read_tabulate by exact Hin. unfold seed_value.
    rewrite Z.leb_le. lia.
  - intros ->. rewrite Hgrid.
    apply grid_ext; [apply wf_tabulate | apply wf_dead_grid |].
    intros r c Hin. unfold seeded_grid, dead_grid.
    rewrite read_tabulate by exact Hin.
    change (replicate (Z.to_nat ROWS) (replicate (Z.to_nat COLS) false))
      with (tabulate (fun _ _ => false)).
    rewrite read_tabulate by exact Hin.
    unfold seed_value. apply Z.leb_gt.
    specialize (Hdraw (Z.to_nat (COLS * r + c))). lia.
Qed.

Lemma randomize_seeds_by_threshold_witness :
  0 <= 100 <= 100 /\ (forall k : nat, 1 <= 50 <= 99) /\
  wf_grid row_blinker /\
  current_state (randomize 100 (fun _ => 50) (with_grid row_blinker)) = dead_grid.
Proof.
  assert (HD : 0 <= 100 <= 100) by lia.
  assert (Hdraw : forall k : nat, 1 <= (fun _ : nat => 50) k <= 99) by (intros k; lia).
  assert (Hwf : wf_grid (current_state (with_grid row_blinker)))
    by (split; [reflexivity | repeat constructor]).
  split; [exact HD |]. split; [exact Hdraw |]. split; [exact Hwf |].
  exact (proj2 (randomize_seeds_by_threshold 100 (fun _ => 50)
                  (with_grid row_blinker) HD Hdraw Hwf) eq_refl).
Defined.

(** How many of the integers [a, a+1, ..., a+n-1] are at least [D]. *)
Lemma count_at_least (D : Z) (n : nat) :
  forall a : nat,
    Z.of_nat (length (List.filter (fun num => seed_value num D)
                                  (List.map Z.of_nat (seq a n)))) =
    Z.max 0 (Z.min (Z.of_nat n) (Z.of_nat a + Z.of_nat n - D)).
Proof.
  induction n as [|n IH]; intros a.
  - cbn [seq List.map List.filter length]. lia.
  - cbn [seq List.map List.filter]. unfold seed_value at 1.
    destruct (Z.leb_spec D (Z.of_nat a)) as [Hle | Hgt]; cbn [length];
      specialize (IH (S a)); lia.
Qed.

Lemma alive_draws_value (D : Z) :
  0 <= D <= 100 -> alive_draws D = Z.min 99 (100 - D).
Proof.
  intros HD. unfold alive_draws, random_range. rewrite count_at_least. lia.
Qed.

(** C8, as the code has it.  For every density D in [0,100], of the 99
    values [random(1, 100)] can return, min(99, 100 - D) make the cell
    alive: the fraction is (100 - D)/99 for D >= 1 and 1 for D = 0.  It
    equals (100 - D)/100 only for D = 0 and D = 100. *)
Theorem alive_fraction_value (D : Z) :
  0 <= D <= 100 ->
  alive_draws D = Z.min 99 (100 - D) /\
  (alive_fraction D == Qmake (Z.min 99 (100 - D)) 99)%Q /\
  (1 <= D -> (alive_fraction D == Qmake (100 - D) 99)%Q) /\
  ((alive_fraction D == stated_fraction D)%Q <-> D = 0 \/ D = 100).
Proof.
  intros HD. pose proof (alive_draws_value D HD) as Hn.
  unfold alive_fraction, stated_fraction, Qeq. cbn [Qnum Qden]. rewrite Hn.
  repeat split; try lia.
Qed.

Lemma alive_fraction_value_witness :
  0 <= 50 <= 100 /\ alive_draws 50 = 50 /\ (alive_fraction 50 == Qmake 50 99)%Q.
Proof.
  assert (HD : 0 <= 50 <= 100) by lia.
  pose proof (alive_fraction_value 50 HD) as (Hn & Hq & _).
  split; [exact HD |]. split; [exact Hn | exact Hq].
Defined.

(** C8 as it is stated fails: for D = 50, 50 of the 99 draws make the cell
    alive, and 50/99 is not (100 - 50)/100. *)
Lemma alive_fraction_not_stated :
  alive_draws 50 = 50 /\ ~ (alive_fraction 50 == stated_fraction 50)%Q.
Proof.
  split; [reflexivity |]. unfold Qeq. vm_compute. discriminate.
Qed.

(* ===================================================================== *)
(** ** The cursor model *)
(* ===================================================================== *)

Lemma step_down_mod (x : Z) :
  0 <= x < 32 -> (if x =? 0 then 31 else x - 1) = (x - 1) mod 32.
Proof.
  intros Hx. destruct (Z.eqb_spec x 0) as [-> | Hne]; [reflexivity |].
  symmetry. apply Z.mod_small. lia.
Qed.

Lemma step_up_mod (x : Z) :
  0 <= x < 32 -> (if x =? 31 then 0 else x + 1) = (x + 1) mod 32.
Proof.
  intros Hx. destruct (Z.eqb_spec x 31) as [-> | Hne]; [reflexivity |].
  symmetry. apply Z.mod_small. lia.
Qed.

(** C4, as the code has it.  For every cursor position inside the grid,
    [moveCursorLeft] decrements the column and [moveCursorRight] increments
    it, modulo COLS; [moveCursorUp] increments the row and [moveCursorDown]
    decrements it, modulo ROWS.  The other coordinate and the cells are left
    as they are. *)
Theorem cursor_moves_wrap (s : state) :
  cursor_in_bounds s ->
  (lastC (moveCursorLeft s) = (lastC s - 1) mod COLS /\
   lastR (moveCursorLeft s) = lastR s) /\
  (lastC (moveCursorRight s) = (lastC s + 1) mod COLS /\
   lastR (moveCursorRight s) = lastR s) /\
  (lastR (moveCursorUp s) = (lastR s + 1) mod ROWS /\
   lastC (moveCursorUp s) = lastC s) /\
  (lastR (moveCursorDown s) = (lastR s - 1) mod ROWS /\
   lastC (moveCursorDown s) = lastC s) /\
  (current_state (moveCursorLeft s) = current_state s /\
   current_state (moveCursorRight s) = current_state s /\
   current_state (moveCursorUp s) = current_state s /\
   current_state (moveCursorDown s) = current_state s).
Proof.
  intros [Hr Hc]. unfold ROWS in *. unfold COLS in *.
  repeat split; cbn.
  - apply step_down_mod. exact Hc.
  - apply step_up_mod. exact Hc.
  - apply step_up_mod. exact Hr.
  - apply step_down_mod. exact Hr.
Qed.

Lemma cursor_moves_wrap_witness :
  cursor_in_bounds power_on /\
  lastC (moveCursorLeft power_on) = (0 - 1) mod COLS /\
  lastR (moveCursorDown power_on) = (0 - 1) mod ROWS.
Proof.
  assert (Hb : cursor_in_bounds power_on) by (unfold cursor_in_bounds, ROWS, COLS; cbn; lia).
  pose proof (cursor_moves_wrap power_on Hb) as ((HL & _) & _ & _ & (HD & _) & _).
  split; [exact Hb |]. split; [exact HL | exact HD].
Defined.

(** C4 as it is stated fails for the rows: from row 0, [moveCursorUp] lands
    on row 1, not on row ROWS-1, and [moveCursorDown] lands on row ROWS-1,
    not on row 1. *)
Lemma moveCursorUp_increments_row :
  lastR power_on = 0 /\
  lastR (moveCursorUp power_on) = 1 /\
  lastR (moveCursorUp power_on) <> (lastR power_on - 1) mod ROWS /\
  lastR (moveCursorDown power_on) = ROWS - 1 /\
  lastR (moveCursorDown power_on) <> (lastR power_on + 1) mod ROWS.
Proof. vm_compute. repeat split; discriminate. Qed.

Lemma run_op_in_bounds (op : cursor_op) (s : state) :
  cursor_in_bounds s -> cursor_in_bounds (run_op op s).
Proof.
  unfold cursor_in_bounds, ROWS, COLS. intros [Hr Hc].
  destruct op; cbn.
  - destruct (Z.eqb_spec (lastC s) 0); lia.
  - destruct (Z.eqb_spec (lastC s) 31); lia.
  - destruct (Z.eqb_spec (lastR s) 31); lia.
  - destruct (Z.eqb_spec (lastR s) 0); lia.
  - lia.
Qed.

Lemma run_ops_in_bounds (ops : list cursor_op) :
  forall s, cursor_in_bounds s -> cursor_in_bounds (run_ops ops s).
Proof.
  induction ops as [|op ops IH]; intros s Hs; cbn [run_ops fold_left].
  - exact Hs.
  - apply IH. apply run_op_in_bounds. exact Hs.
Qed.

(** C5.  From a state whose cursor is at (0,0), after every finite sequence
    of cursor moves and toggles the cursor satisfies 0 <= row < ROWS and
    0 <= col < COLS; and every such operation preserves these bounds. *)
Theorem cursor_always_in_bounds (s : state) (ops : list cursor_op) :
  lastR s = 0 ->
  lastC s = 0 ->
  cursor_in_bounds (run_ops ops s) /\
  (forall (op : cursor_op) (s' : state),
      cursor_in_bounds s' -> cursor_in_bounds (run_op op s')).
Proof.
  intros HR HC. split.
  - apply run_ops_in_bounds. unfold cursor_in_bounds, ROWS, COLS. lia.
  - intros op s'. apply run_op_in_bounds.
Qed.

Lemma cursor_always_in_bounds_witness :
  lastR (setup 50 (fun _ => 50)) = 0 /\ lastC (setup 50 (fun _ => 50)) = 0 /\
  cursor_in_bounds
    (run_ops [OpLeft; OpDown; OpToggle; OpRight; OpRight; OpUp] (setup 50 (fun _ => 50))).
Proof.
  assert (HR : lastR (setup 50 (fun _ => 50)) = 0) by (vm_compute; reflexivity).
  assert (HC : lastC (setup 50 (fun _ => 50)) = 0) by (vm_compute; reflexivity).
  split; [exact HR |]. split; [exact HC |].
  exact (proj1 (cursor_always_in_bounds (setup 50 (fun _ => 50))
                  [OpLeft; OpDown; OpToggle; OpRight; OpRight; OpUp] HR HC)).
Defined.

(* ===================================================================== *)
(** ** The interaction loop *)
(* ===================================================================== *)

Lemma move_stage_last (inp : input) (s : state) :
  lastJoystickButton (move_stage inp s) = lastJoystickButton s.
Proof.
  unfold move_stage.
  destruct (256 <? joyX inp), (joyX inp <? -256),
           (joyY inp <? -256), (256 <? joyY inp); reflexivity.
Qed.

Lemma loop_last (inp : input) (s : state) :
  lastJoystickButton (loop inp s) = joystickButton inp.
Proof. reflexivity. Qed.

Lemma toggles_last_low (inp : input) (s : state) :
  lastJoystickButton s = LOW -> toggles inp s = false.
Proof.
  intros Hlow. unfold toggles, button_branch.
  rewrite move_stage_last, Hlow.
  destruct (switch_up inp), (switch_down inp), (switch_right inp),
           (switch_left inp), (joystickButton inp); reflexivity.
Qed.

Lemma toggles_masked (inp : input) (s : state) :
  switch_up inp = LOW \/ switch_down inp = LOW \/
  switch_right inp = LOW \/ switch_left inp = LOW ->
  toggles inp s = false.
Proof.
  intros Hm. unfold toggles, button_branch.
  destruct (switch_up inp), (switch_down inp), (switch_right inp),
           (switch_left inp); try reflexivity.
  destruct Hm as [H | [H | [H | H]]]; discriminate.
Qed.

Lemma toggles_on_edge (inp : input) (s : state) :
  buttons_idle inp -> joystickButton inp = LOW -> lastJoystickButton s = HIGH ->
  toggles inp s = true.
Proof.
  intros (Hu & Hd & Hr & Hl) Hj Hlast. unfold toggles, button_branch.
  rewrite move_stage_last, Hu, Hd, Hr, Hl, Hj, Hlast. reflexivity.
Qed.

(** While the button stays pressed after a pass that read it pressed, no
    pass toggles. *)
Lemma toggle_count_held (inps : list input) :
  forall s, held inps -> lastJoystickButton s = LOW -> toggle_count inps s = O.
Proof.
  induction inps as [|inp inps IH]; intros s Hheld Hlast; cbn [toggle_count].
  - reflexivity.
  - apply Forall_cons in Hheld as [Hinp Hheld].
    rewrite (toggles_last_low inp s Hlast), (IH (loop inp s) Hheld); [reflexivity |].
    rewrite loop_last. exact Hinp.
Qed.

Lemma toggle_count_app (l1 l2 : list input) :
  forall s, toggle_count (l1 ++ l2) s
            = (toggle_count l1 s + toggle_count l2 (run l1 s))%nat.
Proof.
  induction l1 as [|inp l1 IH]; intros s; cbn [app toggle_count run fold_left].
  - reflexivity.
  - rewrite IH. unfold run. lia.
Qed.

Lemma run_last_held (inps : list input) :
  forall s, held inps -> lastJoystickButton s = LOW ->
            lastJoystickButton (run inps s) = LOW.
Proof.
  induction inps as [|inp inps IH]; intros s Hheld Hlast; cbn [run fold_left].
  - exact Hlast.
  - apply Forall_cons in Hheld as [Hinp Hheld].
    apply (IH (loop inp s) Hheld). rewrite loop_last. exact Hinp.
Qed.

(** A toggle after a pass that read the button pressed needs a pass that
    reads it released. *)
Lemma toggle_needs_release (inps : list input) :
  forall s, lastJoystickButton s = LOW -> toggle_count inps s <> O ->
            Exists (fun inp => joystickButton inp = HIGH) inps.
Proof.
  induction inps as [|inp inps IH]; intros s Hlast Hcount; cbn [toggle_count] in Hcount.
  - congruence.
  - rewrite (toggles_last_low inp s Hlast) in Hcount.
    destruct (joystickButton inp) eqn:Hj.
    + apply Exists_cons_tl. apply (IH (loop inp s)); [| exact Hcount].
      rewrite loop_last. exact Hj.
    + apply Exists_cons_hd. exact Hj.
Qed.

Lemma state_eta (s : state) :
  State (current_state s) (play s) (lastR s) (lastC s) (lastJoystickButton s) (tft s) = s.
Proof. destruct s. reflexivity. Qed.

Lemma move_stage_at_rest (inp : input) (s : state) :
  at_rest inp -> move_stage inp s = s.
Proof.
  intros [Hx Hy]. unfold move_stage.
  destruct (Z.ltb_spec 256 (joyX inp)); [lia |].
  destruct (Z.ltb_spec (joyX inp) (-256)); [lia |].
  destruct (Z.ltb_spec (joyY inp) (-256)); [lia |].
  destruct (Z.ltb_spec 256 (joyY inp)); [lia |]. reflexivity.
Qed.

Lemma loop_quiet_edge (inp : input) (s : state) :
  quiet inp -> joystickButton inp = LOW ->
  lastJoystickButton s = HIGH -> play s = false ->
  loop inp s = set_lastJoystickButton LOW (invertCurrentCell s).
Proof.
  intros [Hrest (Hu & Hd & Hr & Hl)] Hj Hlast Hplay.
  unfold loop. rewrite (move_stage_at_rest inp s Hrest).
  unfold button_stage, button_branch. rewrite Hu, Hd, Hr, Hl, Hj, Hlast.
  cbn [level_eqb andb]. unfold advance_stage. cbn [fst snd orb].
  replace (play (invertCurrentCell s)) with (play s) by reflexivity.
  rewrite Hplay. reflexivity.
Qed.

Lemma loop_quiet_held (inp : input) (s : state) :
  quiet inp -> joystickButton inp = LOW ->
  lastJoystickButton s = LOW -> play s = false ->
  loop inp s = s.
Proof.
  intros [Hrest (Hu & Hd & Hr & Hl)] Hj Hlast Hplay.
  unfold loop. rewrite (move_stage_at_rest inp s Hrest).
  unfold button_stage, button_branch. rewrite Hu, Hd, Hr, Hl, Hj, Hlast.
  cbn [level_eqb andb]. unfold advance_stage. cbn [fst snd orb].
  rewrite Hplay. unfold set_lastJoystickButton. rewrite <- Hlast.
  apply state_eta.
Qed.

Lemma run_quiet_held (inps : list input) (s : state) :
  Forall quiet inps -> held inps ->
  lastJoystickButton s = LOW -> play s = false ->
  run inps s = s.
Proof.
  intros Hq Hheld Hlast Hplay.
  induction inps as [|inp inps IH]; cbn [run fold_left]; [reflexivity |].
  apply Forall_cons in Hq as [Hqi Hq]. apply Forall_cons in Hheld as [Hj Hheld].
  rewrite (loop_quiet_held inp s Hqi Hj Hlast Hplay). exact (IH Hq Hheld).
Qed.

(** A pass that toggles reads the button pressed, follows a pass that read
    it released (or the start), and finds no switch pressed. *)
Lemma toggles_true_edge (inp : input) (s : state) :
  toggles inp s = true ->
  joystickButton inp = LOW /\ lastJoystickButton s = HIGH /\ buttons_idle inp.
Proof.
  unfold toggles, button_branch, buttons_idle. rewrite move_stage_last.
  destruct (switch_up inp), (switch_down inp), (switch_right inp),
           (switch_left inp), (joystickButton inp), (lastJoystickButton s);
    cbn; intros H; try discriminate H; repeat split.
Qed.

Lemma run_app (l1 l2 : list input) (s : state) :
  run (l1 ++ l2) s = run l2 (run l1 s).
Proof. unfold run. apply fold_left_app. Qed.

(** After at least one pass, the remembered level is the reading of the
    last pass. *)
Lemma run_last_snoc (l : list input) (inp : input) (s : state) :
  lastJoystickButton (run (l ++ [inp]) s) = joystickButton inp.
Proof. rewrite run_app. cbn [run fold_left]. apply loop_last. Qed.

(** C7.  On every pass the button chain applies the action the priority
    order reset > pause > play > single-step > cell-toggle selects among the
    active inputs, and no other: the branch taken is the selected action (or
    none), and the whole chain does what that one action does.  With reset
    and pause both active only the reset occurs: the grid is randomized and
    the play flag keeps its value. *)
Theorem button_chain_priority (inp : input) (s : state) :
  action_of_branch (button_branch inp s) = selected inp s /\
  button_stage inp s = apply_action inp (selected inp s) s /\
  loop inp s =
    set_lastJoystickButton (joystickButton inp)
      (advance_stage inp
         (apply_action inp (selected inp (move_stage inp s)) (move_stage inp s))) /\
  (switch_up inp = LOW ->
     button_stage inp s = (randomize (slider inp) (draws inp) s, false) /\
     (wf_grid (current_state s) -> play (fst (button_stage inp s)) = play s)) /\
  (switch_up inp = HIGH -> switch_down inp = LOW ->
     button_stage inp s = (set_play false s, false)) /\
  (switch_up inp = HIGH -> switch_down inp = HIGH -> switch_right inp = LOW ->
     button_stage inp s = (set_play true s, false)) /\
  (switch_up inp = HIGH -> switch_down inp = HIGH -> switch_right inp = HIGH ->
   switch_left inp = LOW ->
     button_stage inp s = (s, true)).
Proof.
  assert (Hsel : forall s0, action_of_branch (button_branch inp s0) = selected inp s0).
  { intros s0. unfold button_branch, selected, priority, active. cbn [List.find].
    destruct (switch_up inp), (switch_down inp), (switch_right inp),
             (switch_left inp), (joystickButton inp), (lastJoystickButton s0);
      reflexivity. }
  assert (Hstage : forall s0, button_stage inp s0 = apply_action inp (selected inp s0) s0).
  { intros s0. rewrite <- Hsel. unfold button_stage.
    destruct (button_branch inp s0); reflexivity. }
  split; [apply Hsel |]. split; [apply Hstage |].
  split; [unfold loop; rewrite Hstage; reflexivity |].
  unfold button_stage, button_branch.
  split; [| split; [| split]].
  - intros ->. cbn [level_eqb]. split; [reflexivity |].
    intros Hwf. cbn [fst]. apply (randomize_globals _ _ s Hwf).
  - intros -> ->. reflexivity.
  - intros -> -> ->. reflexivity.
  - intros -> -> -> ->. reflexivity.
Qed.

(** C6.  The toggle fires only on a falling edge of the joystick button
    between two consecutive passes: a pass that toggles reads the button
    pressed and the remembered level, which is the reading of the pass
    before it, is released; so when the button reads pressed on a pass and
    on the pass before it, the later pass does not toggle.  While the button
    is held no further pass toggles, a hold toggles at most once, and a hold
    that starts on a falling edge with no switch pressed toggles exactly
    once; with nothing else going on, the state after the hold is the state
    before it with the selected cell inverted once. *)
Theorem toggle_is_edge_triggered (s : state) (first : input) (rest : list input) :
  joystickButton first = LOW ->
  held rest ->
  (forall inp s0, toggles inp s0 = true ->
     joystickButton inp = LOW /\ lastJoystickButton s0 = HIGH) /\
  (forall prev inp s0, toggles inp (loop prev s0) = true ->
     joystickButton prev = HIGH /\ joystickButton inp = LOW) /\
  (forall inp s0, joystickButton inp = HIGH -> toggles inp s0 = false) /\
  (forall inp, joystickButton inp = LOW -> toggles inp (loop first s) = false) /\
  toggle_count rest (loop first s) = O /\
  (toggle_count (first :: rest) s <= 1)%nat /\
  (lastJoystickButton s = HIGH -> buttons_idle first ->
     toggles first s = true /\ toggle_count (first :: rest) s = 1%nat) /\
  (lastJoystickButton s = HIGH -> play s = false ->
   quiet first -> Forall quiet rest ->
     run (first :: rest) s = set_lastJoystickButton LOW (invertCurrentCell s) /\
     (wf_grid (current_state s) -> cursor_in_bounds s ->
        read (current_state (run (first :: rest) s)) (lastR s) (lastC s)
        = negb (read (current_state s) (lastR s) (lastC s)))).
Proof.
  intros Hfirst Hheld.
  assert (Hlast : lastJoystickButton (loop first s) = LOW)
    by (rewrite loop_last; exact Hfirst).
  pose proof (toggle_count_held rest (loop first s) Hheld Hlast) as Hrest.
  split; [| split; [| split; [| split; [| split; [| split; [| split]]]]]].
  - intros inp s0 Ht. destruct (toggles_true_edge inp s0 Ht) as (Hj & Hl & _).
    split; assumption.
  - intros prev inp s0 Ht. destruct (toggles_true_edge inp _ Ht) as (Hj & Hl & _).
    rewrite loop_last in Hl. split; assumption.
  - intros inp s0 Hj. destruct (toggles inp s0) eqn:Ht; [| reflexivity].
    destruct (toggles_true_edge inp s0 Ht) as (Hj' & _). congruence.
  - intros inp _. apply toggles_last_low. exact Hlast.
  - exact Hrest.
  - cbn [toggle_count]. rewrite Hrest. destruct (toggles first s); lia.
  - intros Hhigh Hidle.
    pose proof (toggles_on_edge first s Hidle Hfirst Hhigh) as Ht.
    split; [exact Ht |]. cbn [toggle_count]. rewrite Ht, Hrest. reflexivity.
  - intros Hhigh Hplay Hq Hqrest.
    assert (Hrun : run (first :: rest) s
                   = set_lastJoystickButton LOW (invertCurrentCell s)).
    { cbn [run fold_left].
      rewrite (loop_quiet_edge first s Hq Hfirst Hhigh Hplay).
      apply run_quiet_held; [exact Hqrest | exact Hheld | reflexivity | exact Hplay]. }
    split; [exact Hrun |].
    intros Hwf Hb. rewrite Hrun.
    cbn [set_lastJoystickButton invertCurrentCell highlight set_tft
         set_current_state current_state].
    apply read_write_eq; assumption.
Qed.

Lemma toggle_is_edge_triggered_witness :
  joystickButton pressed = LOW /\ held [pressed; pressed; pressed] /\
  toggle_count [pressed; pressed; pressed; pressed] power_on = 1%nat /\
  toggles (levels HIGH HIGH HIGH HIGH HIGH) power_on = false /\
  toggle_count [levels HIGH HIGH HIGH HIGH HIGH; levels HIGH HIGH HIGH HIGH HIGH]
               power_on = O.
Proof.
  assert (Hheld : held [pressed; pressed; pressed]) by (repeat constructor).
  assert (Hidle : buttons_idle pressed) by (repeat split).
  pose proof (toggle_is_edge_triggered power_on pressed [pressed; pressed; pressed]
                eq_refl Hheld) as (_ & _ & Hreleased & _ & _ & _ & Honce & _).
  split; [reflexivity |]. split; [exact Hheld |].
  split; [exact (proj2 (Honce eq_refl Hidle)) |].
  split; [exact (Hreleased (levels HIGH HIGH HIGH HIGH HIGH) power_on eq_refl) |].
  reflexivity.
Defined.

(** C10.  A press of the joystick button whose first pressed reading falls
    on a pass where reset, pause, play or single-step is active is dropped:
    that pass does not toggle, and no later pass toggles while the button
    stays held.  A later pass toggles only when the button was released and
    pressed anew: the toggling pass reads the button pressed, and the pass
    right before it comes after the hold and read the button released. *)
Theorem masked_press_is_dropped (s : state) (first : input) (rest more : list input) :
  joystickButton first = LOW ->
  switch_up first = LOW \/ switch_down first = LOW \/
  switch_right first = LOW \/ switch_left first = LOW ->
  held rest ->
  toggles first s = false /\
  toggle_count (first :: rest) s = O /\
  lastJoystickButton (run (first :: rest) s) = LOW /\
  (toggle_count ((first :: rest) ++ more) s <> O ->
     Exists (fun inp => joystickButton inp = HIGH) more) /\
  (forall inp, toggles inp (run ((first :: rest) ++ more) s) = true ->
     joystickButton inp = LOW /\
     exists before_release released,
       more = before_release ++ [released] /\ joystickButton released = HIGH).
Proof.
  intros Hfirst Hmask Hheld.
  assert (Hlast : lastJoystickButton (loop first s) = LOW)
    by (rewrite loop_last; exact Hfirst).
  pose proof (toggles_masked first s Hmask) as Ht.
  assert (Hcount : toggle_count (first :: rest) s = O).
  { cbn [toggle_count]. rewrite Ht.
    rewrite (toggle_count_held rest (loop first s) Hheld Hlast). reflexivity. }
  assert (Hend : lastJoystickButton (run (first :: rest) s) = LOW).
  { cbn [run fold_left]. apply run_last_held; assumption. }
  split; [exact Ht |]. split; [exact Hcount |]. split; [exact Hend |].
  split.
  - rewrite toggle_count_app, Hcount. cbn [Nat.add].
    apply toggle_needs_release. exact Hend.
  - intros inp Htog.
    destruct (toggles_true_edge inp _ Htog) as (Hj & Hl & _).
    split; [exact Hj |].
    clear Hcount Hend. induction more as [|m more' _] using rev_ind.
    + rewrite app_nil_r in Hl.
      assert (Hlow : lastJoystickButton (run (first :: rest) s) = LOW)
        by (cbn [run fold_left]; apply run_last_held; assumption).
      congruence.
    + exists more', m. split; [reflexivity |].
      rewrite app_assoc, run_last_snoc in Hl. exact Hl.
Qed.

Lemma masked_press_is_dropped_witness :
  lastJoystickButton power_on = HIGH /\
  joystickButton (levels LOW LOW HIGH HIGH HIGH) = LOW /\
  held [pressed; pressed] /\
  toggle_count [levels LOW LOW HIGH HIGH HIGH; pressed; pressed] power_on = O /\
  toggles (levels HIGH HIGH HIGH HIGH HIGH)
          (run [levels LOW LOW HIGH HIGH HIGH; pressed; pressed] power_on) = false /\
  toggles pressed
          (run [levels LOW LOW HIGH HIGH HIGH; pressed; pressed;
                levels HIGH HIGH HIGH HIGH HIGH] power_on) = true.
Proof.
  assert (Hheld : held [pressed; pressed]) by (repeat constructor).
  pose proof (masked_press_is_dropped power_on (levels LOW LOW HIGH HIGH HIGH)
                [pressed; pressed] [] eq_refl (or_introl eq_refl) Hheld)
    as (_ & Hcount & _ & _ & Hanew).
  split; [reflexivity |]. split; [reflexivity |]. split; [exact Hheld |].
  split; [exact Hcount |]. split; [| reflexivity].
  destruct (toggles (levels HIGH HIGH HIGH HIGH HIGH)
              (run [levels LOW LOW HIGH HIGH HIGH; pressed; pressed] power_on))
    eqn:Ht; [| reflexivity].
  destruct (Hanew (levels HIGH HIGH HIGH HIGH HIGH) Ht) as [Hlow _].
  discriminate Hlow.
Defined.

(* ===================================================================== *)
(** ** Loops over the whole grid *)
(* ===================================================================== *)

(** A pair of loops over the rows and columns whose body, at cell [(r, c)],
    keeps [I], establishes [Done r c] and keeps [Done] of every other cell,
    ends with [Done] of every cell. *)
Lemma grid_loops_inv {A : Type} (I : A -> Prop) (Done : Z -> Z -> A -> Prop)
    (body : Z -> Z -> A -> A) (a : A) :
  I a ->
  (forall r c x, in_grid r c -> I x -> I (body r c x)) ->
  (forall r c x, in_grid r c -> I x -> Done r c (body r c x)) ->
  (forall r c r' c' x, in_grid r c -> in_grid r' c' -> (r', c') <> (r, c) ->
                       I x -> Done r' c' x -> Done r' c' (body r c x)) ->
  let res := for_loop 0 ROWS (fun r acc =>
               for_loop 0 COLS (fun c acc => body r c acc) acc) a in
  I res /\ forall r c, in_grid r c -> Done r c res.
Proof.
  intros HI Hkeep Hown Hother res. subst res.
  set (Q := fun (r : Z) (x : A) =>
    I x /\ forall r' c', in_grid r' c' -> r' < r -> Done r' c' x).
  assert (HQ : Q ROWS (for_loop 0 ROWS (fun r acc =>
               for_loop 0 COLS (fun c acc => body r c acc) acc) a)).
  { apply for_loop_inv.
    - unfold ROWS. lia.
    - split; [exact HI |]. intros r' c' [Hr' _] Hlt. lia.
    - intros r x Hr [HIx Hdone].
      set (P := fun (c : Z) (x : A) =>
        I x /\ forall r' c', in_grid r' c' -> before r' c' r c -> Done r' c' x).
      assert (HP : P COLS (for_loop 0 COLS (fun c acc => body r c acc) x)).
      { apply for_loop_inv.
        - unfold COLS. lia.
        - split; [exact HIx |]. intros r' c' Hin [Hlt | [-> Hc']].
          + apply Hdone; assumption.
          + destruct Hin as [_ Hc]. lia.
        - intros c y Hc [HIy Hy].
          assert (Hrc : in_grid r c) by (split; assumption).
          split; [apply Hkeep; assumption |].
          intros r' c' Hin Hbefore.
          destruct (decide ((r', c') = (r, c))) as [Heq | Hne].
          + injection Heq as -> ->. apply Hown; assumption.
          + apply Hother; try assumption. apply Hy; [exact Hin |].
            destruct Hbefore as [Hlt | [-> Hlt]]; [left; exact Hlt |].
            right. split; [reflexivity |].
            assert (c' <> c) by congruence. lia. }
      destruct HP as [HIP HdoneP]. split; [exact HIP |].
      intros r' c' Hin Hlt. apply HdoneP; [exact Hin |].
      destruct Hin as [_ Hc']. unfold before. lia. }
  destruct HQ as [HIQ HdoneQ]. split; [exact HIQ |].
  intros r c Hin. apply HdoneQ; [exact Hin |]. destruct Hin as [Hr _]. lia.
Qed.

(* ===================================================================== *)
(** ** Drawing a cell *)
(* ===================================================================== *)

Lemma pen_setColor (value highlighted : bool) (d : display) :
  pen (setColor value highlighted d) = colour_of value highlighted.
Proof. destruct value, highlighted; reflexivity. Qed.

Lemma rects_draw_cell (value highlighted : bool) (r c : Z) (d : display) :
  rects (draw_cell value highlighted r c d)
  = RectCmd (colour_of value highlighted) (c * 5) (r * 4) 5 4 :: rects d.
Proof. destruct value, highlighted; reflexivity. Qed.

Lemma covers_cell (r c r' c' : Z) (p : rgb) :
  covers r' c' (RectCmd p (c * 5) (r * 4) 5 4)
  = (r' =? r) && (c' =? c).
Proof.
  unfold covers. cbn [rc_x rc_y rc_w rc_h].
  destruct (Z.eqb_spec r' r) as [-> | Hr]; destruct (Z.eqb_spec c' c) as [-> | Hc];
    cbn [andb].
  - rewrite !Z.leb_refl. reflexivity.
  - destruct (Z.leb_spec (c * 5) (c' * 5));
      destruct (Z.leb_spec (c' * 5 + 5) (c * 5 + 5)); cbn [andb]; try reflexivity.
    lia.
  - destruct (Z.leb_spec (r * 4) (r' * 4));
      destruct (Z.leb_spec (r' * 4 + 4) (r * 4 + 4));
      rewrite ?andb_false_r; cbn [andb]; try reflexivity.
    lia.
  - destruct (Z.leb_spec (r * 4) (r' * 4));
      destruct (Z.leb_spec (r' * 4 + 4) (r * 4 + 4));
      rewrite ?andb_false_r; cbn [andb]; try reflexivity.
    lia.
Qed.

(** After a cell is drawn, the screen shows its new colour there and what it
    showed before everywhere else. *)
Lemma shown_draw_cell (value highlighted : bool) (r c r' c' : Z) (d : display) :
  shown (draw_cell value highlighted r c d) r' c'
  = if (r' =? r) && (c' =? c) then Some (colour_of value highlighted)
    else shown d r' c'.
Proof.
  unfold shown. rewrite rects_draw_cell. cbn [List.find].
  rewrite covers_cell. destruct ((r' =? r) && (c' =? c)); reflexivity.
Qed.

Lemma on_screen_cell (r c : Z) (p : rgb) :
  in_grid r c -> on_screen (RectCmd p (c * 5) (r * 4) 5 4).
Proof.
  unfold in_grid, ROWS, COLS, on_screen. cbn [rc_x rc_y rc_w rc_h]. lia.
Qed.

Lemma on_screen_draw_cell (value highlighted : bool) (r c : Z) (d : display) :
  in_grid r c -> Forall on_screen (rects d) ->
  Forall on_screen (rects (draw_cell value highlighted r c d)).
Proof.
  intros Hin Hd. rewrite rects_draw_cell.
  apply Forall_cons. split; [apply on_screen_cell; exact Hin | exact Hd].
Qed.

Lemma same_cell_false (r c r' c' : Z) :
  (r', c') <> (r, c) -> (r' =? r) && (c' =? c) = false.
Proof.
  intros Hne. destruct (Z.eqb_spec r' r) as [-> |]; [| reflexivity].
  destruct (Z.eqb_spec c' c) as [-> |]; [congruence | reflexivity].
Qed.

(* ===================================================================== *)
(** ** Every function keeps the globals and the screen consistent *)
(* ===================================================================== *)

(** [next] redraws every cell with its new value: whatever the screen
    showed, it shows the new generation afterwards. *)
Lemma next_consistent (scratch : grid) (s : state) :
  wf_grid scratch -> cursor_in_bounds s -> Forall on_screen (rects (tft s)) ->
  consistent (next scratch s).
Proof.
  intros Hwf Hb Hscreen.
  destruct (next_buffer scratch s Hwf) as [Hwfn Hcells].
  set (V := fun r c =>
    apply_rules (read (current_state s) r c) (liveNeighbors (current_state s) r c)).
  destruct (grid_loops_inv
              (fun x : grid * display => Forall on_screen (rects (snd x)))
              (fun r c (x : grid * display) =>
                 shown (snd x) r c
                 = Some (colour_of (V r c) ((r =? lastR s) && (c =? lastC s))))
              (fun r c acc => next_cell s r c acc) (scratch, tft s))
    as [Hscr Hshown].
  - exact Hscreen.
  - intros r c x Hin Hx. cbn [next_cell snd].
    apply on_screen_draw_cell; assumption.
  - intros r c x Hin _. cbn [next_cell snd]. rewrite shown_draw_cell.
    rewrite !Z.eqb_refl. reflexivity.
  - intros r c r' c' x _ _ Hne _ Hdone. cbn [next_cell snd].
    rewrite shown_draw_cell, (same_cell_false _ _ _ _ Hne). exact Hdone.
  - unfold consistent, in_sync, cursor_in_bounds, next. cbv zeta.
    cbn [set_tft set_current_state current_state tft lastR lastC].
    split; [exact Hwfn |]. split; [exact Hb |]. split; [| exact Hscr].
    intros r c Hin.
    rewrite (Hshown r c Hin), (Hcells r c Hin). reflexivity.
Qed.

(** So does [randomize]. *)
Lemma randomize_consistent (slider : Z) (draw : nat -> Z) (s : state) :
  wf_grid (current_state s) -> cursor_in_bounds s ->
  Forall on_screen (rects (tft s)) ->
  consistent (randomize slider draw s).
Proof.
  intros Hwf Hb Hscreen.
  destruct (grid_loops_inv
              (fun x : state * nat =>
                 wf_grid (current_state (fst x)) /\
                 lastR (fst x) = lastR s /\ lastC (fst x) = lastC s /\
                 Forall on_screen (rects (tft (fst x))))
              (fun r c (x : state * nat) =>
                 shown (tft (fst x)) r c
                 = Some (colour_of (read (current_state (fst x)) r c)
                                   ((r =? lastR s) && (c =? lastC s))))
              (fun r c acc => randomize_cell slider draw r c acc) (s, O))
    as [(Hwfr & HR & HC & Hscr) Hshown].
  - cbn [fst]. split; [exact Hwf |]. split; [reflexivity |].
    split; [reflexivity | exact Hscreen].
  - intros r c x Hin (Hwfx & HRx & HCx & Hx). cbn.
    split; [apply wf_grid_write; exact Hwfx |].
    split; [exact HRx |]. split; [exact HCx |].
    apply on_screen_draw_cell; assumption.
  - intros r c x Hin (Hwfx & HRx & HCx & _). cbn.
    rewrite shown_draw_cell, !Z.eqb_refl. cbn [andb].
    rewrite read_write_eq by assumption. rewrite HRx, HCx. reflexivity.
  - intros r c r' c' x _ _ Hne _ Hdone. cbn.
    rewrite shown_draw_cell, (same_cell_false _ _ _ _ Hne).
    rewrite read_write_ne by exact Hne. exact Hdone.
  - unfold consistent, in_sync, randomize. split; [exact Hwfr |].
    split; [unfold cursor_in_bounds; rewrite HR, HC; exact Hb |].
    split; [| exact Hscr].
    intros r c Hin. rewrite (Hshown r c Hin), HR, HC. reflexivity.
Qed.

(** A state that differs from a consistent one by a move of the cursor,
    drawn as the four [moveCursor] functions draw it, is consistent. *)
Lemma consistent_after_move (s s' : state) :
  current_state s' = current_state s ->
  tft s' = draw_cell (read (current_state s) (lastR s') (lastC s')) true
             (lastR s') (lastC s')
             (draw_cell (read (current_state s) (lastR s) (lastC s)) false
                (lastR s) (lastC s) (tft s)) ->
  cursor_in_bounds s' ->
  consistent s -> consistent s'.
Proof.
  intros Hg Ht Hb' (Hwf & Hb & Hsync & Hscr).
  unfold consistent, in_sync. rewrite Hg. split; [exact Hwf |]. split; [exact Hb' |].
  split.
  - intros r c Hin. rewrite Ht, !shown_draw_cell.
    destruct (decide ((r, c) = (lastR s', lastC s'))) as [Heq | Hne'].
    { injection Heq as -> ->. rewrite !Z.eqb_refl. reflexivity. }
    rewrite !(same_cell_false _ _ _ _ Hne').
    destruct (decide ((r, c) = (lastR s, lastC s))) as [Heq | Hne].
    { injection Heq as -> ->. rewrite !Z.eqb_refl. reflexivity. }
    rewrite (same_cell_false _ _ _ _ Hne), (Hsync r c Hin).
    rewrite (same_cell_false _ _ _ _ Hne). reflexivity.
  - rewrite Ht. apply on_screen_draw_cell; [exact Hb' |].
    apply on_screen_draw_cell; [exact Hb | exact Hscr].
Qed.

Lemma moves_consistent (s : state) :
  consistent s ->
  consistent (moveCursorLeft s) /\ consistent (moveCursorRight s) /\
  consistent (moveCursorUp s) /\ consistent (moveCursorDown s).
Proof.
  intros Hs. pose proof Hs as (_ & Hb & _).
  split; [| split; [| split]];
    (apply (consistent_after_move s);
     [reflexivity | reflexivity | | exact Hs]).
  - exact (run_op_in_bounds OpLeft s Hb).
  - exact (run_op_in_bounds OpRight s Hb).
  - exact (run_op_in_bounds OpUp s Hb).
  - exact (run_op_in_bounds OpDown s Hb).
Qed.

Lemma invertCurrentCell_consistent (s : state) :
  consistent s -> consistent (invertCurrentCell s).
Proof.
  intros (Hwf & Hb & Hsync & Hscr).
  unfold consistent, in_sync, cursor_in_bounds, invertCurrentCell.
  cbn [highlight set_tft set_current_state current_state tft lastR lastC].
  split; [apply wf_grid_write; exact Hwf |]. split; [exact Hb |]. split.
  - intros r c Hin.
    rewrite shown_draw_cell.
    destruct (decide ((r, c) = (lastR s, lastC s))) as [Heq | Hne].
    + injection Heq as -> ->. rewrite !Z.eqb_refl. reflexivity.
    + rewrite (same_cell_false _ _ _ _ Hne), read_write_ne by exact Hne.
      rewrite (Hsync r c Hin), (same_cell_false _ _ _ _ Hne). reflexivity.
  - apply on_screen_draw_cell; assumption.
Qed.

Lemma move_stage_consistent (inp : input) (s : state) :
  consistent s -> consistent (move_stage inp s).
Proof.
  intros Hs. unfold move_stage.
  assert (H1 : consistent
                 (if 256 <? joyX inp then moveCursorLeft s
                  else if joyX inp <? -256 then moveCursorRight s else s)).
  { destruct (256 <? joyX inp); [apply moves_consistent; exact Hs |].
    destruct (joyX inp <? -256); [apply moves_consistent; exact Hs | exact Hs]. }
  destruct (joyY inp <? -256); [apply moves_consistent; exact H1 |].
  destruct (256 <? joyY inp); [apply moves_consistent; exact H1 | exact H1].
Qed.

Lemma loop_consistent (inp : input) (s : state) :
  wf_grid (scratch inp) -> consistent s -> consistent (loop inp s).
Proof.
  intros Hscratch Hs0.
  pose proof (move_stage_consistent inp s Hs0) as Hs.
  unfold loop. set (s1 := move_stage inp s) in *.
  assert (Hstage : consistent (fst (button_stage inp s1))).
  { unfold button_stage. destruct (button_branch inp s1); cbn [fst];
      try exact Hs.
    - destruct Hs as (Hwf & Hb & _ & Hscr). apply randomize_consistent; assumption.
    - apply invertCurrentCell_consistent. exact Hs. }
  assert (Hadv : consistent (advance_stage inp (button_stage inp s1))).
  { unfold advance_stage.
    destruct (snd (button_stage inp s1) || play (fst (button_stage inp s1)));
      [| exact Hstage].
    destruct Hstage as (_ & Hb & _ & Hscr). apply next_consistent; assumption. }
  exact Hadv.
Qed.

Lemma setup_consistent (slider : Z) (draw : nat -> Z) :
  consistent (setup slider draw).
Proof.
  unfold setup. apply randomize_consistent.
  - exact wf_dead_grid.
  - unfold cursor_in_bounds, ROWS, COLS. cbn. lia.
  - cbn. repeat constructor; cbn; lia.
Qed.

Lemma run_consistent (inps : list input) :
  forall s, scratch_ok inps -> consistent s -> consistent (run inps s).
Proof.
  induction inps as [|inp inps IH]; intros s Hok Hs; cbn [run fold_left].
  - exact Hs.
  - apply Forall_cons in Hok as [Hinp Hok].
    apply (IH (loop inp s) Hok). apply loop_consistent; assumption.
Qed.

(** X1.  Memory safety of the cursor: from [setup], after every run of
    passes of [loop] the cursor is inside the grid, so every access
    [current_state[lastR][lastC]] is inside the array (which keeps its
    shape). *)
Theorem run_keeps_cursor_in_grid (D : Z) (draw : nat -> Z) (inps : list input) :
  scratch_ok inps ->
  cursor_in_bounds (run inps (setup D draw)) /\
  wf_grid (current_state (run inps (setup D draw))).
Proof.
  intros Hok.
  destruct (run_consistent inps (setup D draw) Hok (setup_consistent D draw))
    as (Hwf & Hb & _).
  split; assumption.
Qed.

Lemma run_keeps_cursor_in_grid_witness :
  scratch_ok [levels HIGH HIGH HIGH LOW HIGH; Input 300 (-300) LOW HIGH HIGH HIGH HIGH 0 (fun _ => 1) dead_grid] /\
  cursor_in_bounds
    (run [levels HIGH HIGH HIGH LOW HIGH; Input 300 (-300) LOW HIGH HIGH HIGH HIGH 0 (fun _ => 1) dead_grid]
         (setup 50 (fun _ => 50))).
Proof.
  assert (Hwf : wf_grid dead_grid) by (split; [reflexivity | repeat constructor]).
  assert (Hok : scratch_ok [levels HIGH HIGH HIGH LOW HIGH;
                            Input 300 (-300) LOW HIGH HIGH HIGH HIGH 0 (fun _ => 1) dead_grid])
    by (repeat constructor; exact Hwf).
  split; [exact Hok |].
  exact (proj1 (run_keeps_cursor_in_grid 50 (fun _ => 50) _ Hok)).
Defined.

(** X2.  The screen never goes stale: from [setup], after every run of
    passes of [loop], every cell of the grid is shown in the colour
    [setColor] gives to its current value and to whether the cursor is on
    it. *)
Theorem screen_shows_the_grid (D : Z) (draw : nat -> Z) (inps : list input) (r c : Z) :
  scratch_ok inps ->
  in_grid r c ->
  let s := run inps (setup D draw) in
  shown (tft s) r c
  = Some (colour_of (read (current_state s) r c) ((r =? lastR s) && (c =? lastC s))).
Proof.
  intros Hok Hin s.
  destruct (run_consistent inps (setup D draw) Hok (setup_consistent D draw))
    as (_ & _ & Hsync & _).
  exact (Hsync r c Hin).
Qed.

Lemma screen_shows_the_grid_witness :
  scratch_ok [Input 300 0 HIGH HIGH HIGH HIGH HIGH 0 (fun _ => 1) dead_grid; pressed] /\
  in_grid 0 31 /\
  shown (tft (run [Input 300 0 HIGH HIGH HIGH HIGH HIGH 0 (fun _ => 1) dead_grid; pressed]
                  (setup 50 (fun _ => 50)))) 0 31
  = Some (255, 153, 51).
Proof.
  assert (Hwf : wf_grid dead_grid) by (split; [reflexivity | repeat constructor]).
  assert (Hok : scratch_ok [Input 300 0 HIGH HIGH HIGH HIGH HIGH 0 (fun _ => 1) dead_grid; pressed])
    by (repeat constructor; exact Hwf).
  assert (Hin : in_grid 0 31) by (unfold in_grid, ROWS, COLS; lia).
  split; [exact Hok |]. split; [exact Hin |].
  rewrite (screen_shows_the_grid 50 (fun _ => 50) _ 0 31 Hok Hin).
  vm_compute. reflexivity.
Defined.

(** X3.  The sketch never draws outside the 160 x 128 screen: from [setup],
    after every run of passes of [loop], every rectangle sent to the display
    lies inside it. *)
Theorem never_draws_off_screen (D : Z) (draw : nat -> Z) (inps : list input) :
  scratch_ok inps ->
  Forall on_screen (rects (tft (run inps (setup D draw)))).
Proof.
  intros Hok.
  destruct (run_consistent inps (setup D draw) Hok (setup_consistent D draw))
    as (_ & _ & _ & Hscr).
  exact Hscr.
Qed.

Lemma never_draws_off_screen_witness :
  scratch_ok [Input (-300) 300 HIGH HIGH HIGH HIGH HIGH 0 (fun _ => 1) dead_grid] /\
  Forall on_screen
    (rects (tft (run [Input (-300) 300 HIGH HIGH HIGH HIGH HIGH 0 (fun _ => 1) dead_grid]
                     (setup 50 (fun _ => 50))))).
Proof.
  assert (Hwf : wf_grid dead_grid) by (split; [reflexivity | repeat constructor]).
  assert (Hok : scratch_ok [Input (-300) 300 HIGH HIGH HIGH HIGH HIGH 0 (fun _ => 1) dead_grid])
    by (repeat constructor; exact Hwf).
  split; [exact Hok |].
  exact (never_draws_off_screen 50 (fun _ => 50) _ Hok).
Defined.

(* ===================================================================== *)
(** ** What a pass of [loop] does to the generation *)
(* ===================================================================== *)

(** Moving the cursor changes neither a cell nor the play flag. *)
Lemma move_stage_globals (inp : input) (s : state) :
  current_state (move_stage inp s) = current_state s /\
  play (move_stage inp s) = play s.
Proof.
  unfold move_stage.
  destruct (256 <? joyX inp), (joyX inp <? -256),
           (joyY inp <? -256), (256 <? joyY inp); split; reflexivity.
Qed.

Lemma button_stage_hands_off (inp : input) (s : state) :
  hands_off inp -> button_stage inp s = (s, false).
Proof.
  intros [(Hu & Hd & Hr & Hl) Hj]. unfold button_stage, button_branch.
  rewrite Hu, Hd, Hr, Hl, Hj. reflexivity.
Qed.

Lemma loop_hands_off (inp : input) (s : state) :
  hands_off inp ->
  loop inp s
  = set_lastJoystickButton HIGH
      (if play s then next (scratch inp) (move_stage inp s) else move_stage inp s).
Proof.
  intros Hoff. pose proof Hoff as [_ Hj]. unfold loop.
  rewrite (button_stage_hands_off inp _ Hoff), Hj. unfold advance_stage.
  cbn [fst snd orb]. rewrite (proj2 (move_stage_globals inp s)). reflexivity.
Qed.

(** X4.  While playing with no button touched, every pass computes one
    generation: after n such passes the grid is the n-th generation of the
    grid it started from, wherever the joystick moves the cursor, and the
    sketch is still playing. *)
Theorem playing_advances_one_generation_per_pass (inps : list input) (s : state) :
  scratch_ok inps ->
  Forall hands_off inps ->
  play s = true ->
  current_state (run inps s) = Nat.iter (length inps) reference_next (current_state s) /\
  play (run inps s) = true.
Proof.
  revert s. induction inps as [|inp inps IH]; intros s Hok Hoff Hplay.
  - split; [reflexivity | exact Hplay].
  - apply Forall_cons in Hok as [Hscr Hok]. apply Forall_cons in Hoff as [Hinp Hoff].
    cbn [run fold_left length]. fold (run inps (loop inp s)).
    assert (Hg : current_state (loop inp s) = reference_next (current_state s)).
    { rewrite (loop_hands_off inp s Hinp), Hplay.
      cbn [set_lastJoystickButton current_state].
      rewrite (next_grid _ _ Hscr), (proj1 (move_stage_globals inp s)). reflexivity. }
    assert (Hp : play (loop inp s) = true).
    { rewrite (loop_hands_off inp s Hinp), Hplay.
      cbn [set_lastJoystickButton play].
      rewrite (proj1 (next_globals _ _)). rewrite (proj2 (move_stage_globals inp s)).
      exact Hplay. }
    destruct (IH (loop inp s) Hok Hoff Hp) as [Hrun Hplay'].
    split; [| exact Hplay'].
    rewrite Hrun, Hg. symmetry. apply Nat.iter_succ_r.
Qed.

Lemma playing_advances_one_generation_per_pass_witness :
  scratch_ok [levels HIGH HIGH HIGH HIGH HIGH; levels HIGH HIGH HIGH HIGH HIGH] /\
  Forall hands_off [levels HIGH HIGH HIGH HIGH HIGH; levels HIGH HIGH HIGH HIGH HIGH] /\
  play (set_play true (with_grid row_blinker)) = true /\
  current_state (run [levels HIGH HIGH HIGH HIGH HIGH; levels HIGH HIGH HIGH HIGH HIGH]
                     (set_play true (with_grid row_blinker)))
  = reference_next (reference_next row_blinker).
Proof.
  assert (Hwf : wf_grid dead_grid) by (split; [reflexivity | repeat constructor]).
  assert (Hok : scratch_ok [levels HIGH HIGH HIGH HIGH HIGH; levels HIGH HIGH HIGH HIGH HIGH])
    by (repeat constructor; exact Hwf).
  assert (Hoff : Forall hands_off [levels HIGH HIGH HIGH HIGH HIGH; levels HIGH HIGH HIGH HIGH HIGH])
    by (repeat constructor).
  split; [exact Hok |]. split; [exact Hoff |]. split; [reflexivity |].
  exact (proj1 (playing_advances_one_generation_per_pass _
                  (set_play true (with_grid row_blinker)) Hok Hoff eq_refl)).
Defined.

(** X5.  While paused with no button touched, no pass changes a cell,
    wherever the joystick moves the cursor, and the sketch stays paused. *)
Theorem paused_keeps_the_generation (inps : list input) (s : state) :
  Forall hands_off inps ->
  play s = false ->
  current_state (run inps s) = current_state s /\
  play (run inps s) = false.
Proof.
  revert s. induction inps as [|inp inps IH]; intros s Hoff Hplay.
  - split; [reflexivity | exact Hplay].
  - apply Forall_cons in Hoff as [Hinp Hoff].
    cbn [run fold_left]. fold (run inps (loop inp s)).
    assert (Hloop : loop inp s = set_lastJoystickButton HIGH (move_stage inp s)).
    { rewrite (loop_hands_off inp s Hinp), Hplay. reflexivity. }
    assert (Hp : play (loop inp s) = false).
    { rewrite Hloop. cbn [set_lastJoystickButton play].
      rewrite (proj2 (move_stage_globals inp s)). exact Hplay. }
    destruct (IH (loop inp s) Hoff Hp) as [Hrun Hplay'].
    split; [| exact Hplay'].
    rewrite Hrun, Hloop. cbn [set_lastJoystickButton current_state].
    apply move_stage_globals.
Qed.

Lemma paused_keeps_the_generation_witness :
  Forall hands_off [Input 300 300 HIGH HIGH HIGH HIGH HIGH 0 (fun _ => 1) dead_grid] /\
  play (with_grid row_blinker) = false /\
  current_state (run [Input 300 300 HIGH HIGH HIGH HIGH HIGH 0 (fun _ => 1) dead_grid]
                     (with_grid row_blinker))
  = row_blinker.
Proof.
  assert (Hoff : Forall hands_off
                   [Input 300 300 HIGH HIGH HIGH HIGH HIGH 0 (fun _ => 1) dead_grid])
    by (repeat constructor).
  split; [exact Hoff |]. split; [reflexivity |].
  exact (proj1 (paused_keeps_the_generation _ (with_grid row_blinker) Hoff eq_refl)).
Defined.

(** X6.  A pass with the single-step switch pressed, and none of the
    switches before it in the chain, computes exactly one generation whether
    the sketch is playing or not, and leaves the play flag as it is: the
    step does not pause a playing sketch, and a playing sketch does not
    advance twice. *)
Theorem single_step_is_one_generation (inp : input) (s : state) :
  wf_grid (scratch inp) ->
  switch_up inp = HIGH -> switch_down inp = HIGH -> switch_right inp = HIGH ->
  switch_left inp = LOW ->
  current_state (loop inp s) = reference_next (current_state s) /\
  play (loop inp s) = play s.
Proof.
  intros Hscr Hu Hd Hr Hl. unfold loop, button_stage, button_branch.
  rewrite Hu, Hd, Hr, Hl. cbn [level_eqb]. unfold advance_stage.
  cbn [fst snd orb set_lastJoystickButton current_state play].
  rewrite (next_grid _ _ Hscr), (proj1 (next_globals _ _)).
  destruct (move_stage_globals inp s) as [-> ->]. split; reflexivity.
Qed.

Lemma single_step_is_one_generation_witness :
  wf_grid (scratch (levels HIGH HIGH HIGH HIGH LOW)) /\
  current_state (loop (levels HIGH HIGH HIGH HIGH LOW) (with_grid row_blinker))
  = reference_next row_blinker.
Proof.
  assert (Hwf : wf_grid (scratch (levels HIGH HIGH HIGH HIGH LOW)))
    by (split; [reflexivity | repeat constructor]).
  split; [exact Hwf |].
  exact (proj1 (single_step_is_one_generation (levels HIGH HIGH HIGH HIGH LOW)
                  (with_grid row_blinker) Hwf eq_refl eq_refl eq_refl eq_refl)).
Defined.

(** X7.  The pause switch acts on the pass that reads it: with reset not
    pressed, whatever the other inputs and even when the sketch was playing,
    that pass changes no cell and leaves the sketch paused. *)
Theorem pause_stops_on_the_same_pass (inp : input) (s : state) :
  switch_up inp = HIGH -> switch_down inp = LOW ->
  current_state (loop inp s) = current_state s /\
  play (loop inp s) = false.
Proof.
  intros Hu Hd. unfold loop, button_stage, button_branch.
  rewrite Hu, Hd. cbn [level_eqb]. unfold advance_stage.
  cbn [fst snd orb set_play play set_lastJoystickButton current_state].
  split; [apply move_stage_globals | reflexivity].
Qed.

Lemma pause_stops_on_the_same_pass_witness :
  switch_up (levels LOW HIGH LOW LOW LOW) = HIGH /\
  switch_down (levels LOW HIGH LOW LOW LOW) = LOW /\
  current_state (loop (levels LOW HIGH LOW LOW LOW) (set_play true (with_grid row_blinker)))
  = row_blinker.
Proof.
  split; [reflexivity |]. split; [reflexivity |].
  exact (proj1 (pause_stops_on_the_same_pass (levels LOW HIGH LOW LOW LOW)
                  (set_play true (with_grid row_blinker)) eq_refl eq_refl)).
Defined.

Lemma advance_stage_pair (inp : input) (x : state) (b : bool) :
  advance_stage inp (x, b) = if b || play x then next (scratch inp) x else x.
Proof. reflexivity. Qed.

Lemma set_lastJoystickButton_globals (l : level) (x : state) :
  current_state (set_lastJoystickButton l x) = current_state x /\
  play (set_lastJoystickButton l x) = play x.
Proof. split; reflexivity. Qed.

Lemma button_stage_reset (inp : input) (s : state) :
  switch_up inp = LOW ->
  button_stage inp s = (randomize (slider inp) (draws inp) s, false).
Proof.
  intros Hu. unfold button_stage, button_branch. rewrite Hu. reflexivity.
Qed.

(** X8.  A reset never leaves anything of the previous generation: the grid
    after the pass is the seeded grid when the sketch is paused, and the
    generation after the seeded grid when it is playing (the seeded grid is
    drawn and at once replaced). *)
Theorem reset_replaces_the_grid (inp : input) (s : state) :
  wf_grid (current_state s) ->
  wf_grid (scratch inp) ->
  switch_up inp = LOW ->
  current_state (loop inp s)
  = (if play s then reference_next (seeded_grid (slider inp) (draws inp))
     else seeded_grid (slider inp) (draws inp)) /\
  play (loop inp s) = play s.
Proof.
  intros Hwf Hscr Hu.
  destruct (move_stage_globals inp s) as [Hg Hp].
  assert (Hwf1 : wf_grid (current_state (move_stage inp s))) by (rewrite Hg; exact Hwf).
  pose proof (randomize_grid (slider inp) (draws inp) _ Hwf1) as Hrg.
  pose proof (proj1 (randomize_globals (slider inp) (draws inp) _ Hwf1)) as Hrp.
  unfold loop.
  rewrite (button_stage_reset inp _ Hu), advance_stage_pair, orb_false_l.
  rewrite (proj1 (set_lastJoystickButton_globals _ _)),
          (proj2 (set_lastJoystickButton_globals _ _)).
  rewrite Hrp, Hp.
  destruct (play s) eqn:Hplay.
  - rewrite (next_grid _ _ Hscr), (proj1 (next_globals _ _)), Hrg, Hrp, Hp.
    split; reflexivity.
  - rewrite Hrg, Hrp, Hp. split; reflexivity.
Qed.

Lemma reset_replaces_the_grid_witness :
  wf_grid (current_state (with_grid row_blinker)) /\
  wf_grid (scratch (levels HIGH LOW HIGH HIGH HIGH)) /\
  switch_up (levels HIGH LOW HIGH HIGH HIGH) = LOW /\
  current_state (loop (levels HIGH LOW HIGH HIGH HIGH) (with_grid row_blinker))
  = seeded_grid 50 (fun _ => 50).
Proof.
  assert (Hwf : wf_grid (current_state (with_grid row_blinker)))
    by (split; [reflexivity | repeat constructor]).
  assert (Hscr : wf_grid (scratch (levels HIGH LOW HIGH HIGH HIGH)))
    by (split; [reflexivity | repeat constructor]).
  split; [exact Hwf |]. split; [exact Hscr |]. split; [reflexivity |].
  exact (proj1 (reset_replaces_the_grid (levels HIGH LOW HIGH HIGH HIGH)
                  (with_grid row_blinker) Hwf Hscr eq_refl)).
Defined.

(* ===================================================================== *)
(** ** The torus has no special cell *)
(* ===================================================================== *)

Lemma mod_in_grid (x y : Z) : in_grid (x mod ROWS) (y mod COLS).
Proof.
  unfold in_grid, ROWS, COLS.
  pose proof (Z.mod_pos_bound x 32). pose proof (Z.mod_pos_bound y 32). lia.
Qed.

Lemma mod_shift (x d a : Z) : ((x + d) mod 32 + a) mod 32 = ((x + a) mod 32 + d) mod 32.
Proof.
  rewrite !Z.add_mod_idemp_l by lia. f_equal. lia.
Qed.

Lemma read_translate (a b : Z) (g : grid) (r c : Z) :
  in_grid r c ->
  read (translate a b g) r c = read g ((r + a) mod ROWS) ((c + b) mod COLS).
Proof.
  intros Hin. unfold translate. rewrite read_tabulate by exact Hin. reflexivity.
Qed.

Lemma count_filter_map {A B : Type} (P Q : B -> bool) (f f' : A -> B) (l : list A) :
  (forall x, P (f x) = Q (f' x)) ->
  length (List.filter P (List.map f l)) = length (List.filter Q (List.map f' l)).
Proof.
  intros Hext. induction l as [|x l IH]; [reflexivity |].
  cbn [List.map List.filter]. rewrite Hext.
  destruct (Q (f' x)); cbn [length]; rewrite IH; reflexivity.
Qed.

Lemma torus_count_translate (a b : Z) (g : grid) (r c : Z) :
  torus_count (translate a b g) r c
  = torus_count g ((r + a) mod ROWS) ((c + b) mod COLS).
Proof.
  unfold torus_count, torus_neighbours. f_equal.
  apply count_filter_map. intros d. cbn [fst snd].
  rewrite read_translate by apply mod_in_grid.
  unfold ROWS, COLS. rewrite (mod_shift r), (mod_shift c). reflexivity.
Qed.

Lemma reference_next_translate (a b : Z) (g : grid) :
  reference_next (translate a b g) = translate a b (reference_next g).
Proof.
  apply grid_ext; [apply wf_tabulate | apply wf_tabulate |].
  intros r c Hin. rewrite read_translate by exact Hin.
  unfold reference_next.
  rewrite (read_tabulate _ r c Hin), (read_tabulate _ _ _ (mod_in_grid (r + a) (c + b))).
  unfold snapshot_cell. cbv zeta.
  rewrite torus_count_translate, read_translate by exact Hin. reflexivity.
Qed.

(** X9.  [next] commutes with moving the grid on the torus: if one grid is
    another moved by (a, b), with wrap-around, then so are their next
    generations.  No row, column, edge or corner is treated differently. *)
Theorem next_commutes_with_translation
    (a b : Z) (scratch scratch' : grid) (s s' : state) :
  wf_grid scratch ->
  wf_grid scratch' ->
  current_state s' = translate a b (current_state s) ->
  current_state (next scratch' s') = translate a b (current_state (next scratch s)).
Proof.
  intros Hwf Hwf' Hg.
  rewrite (next_grid _ _ Hwf), (next_grid _ _ Hwf'), Hg.
  apply reference_next_translate.
Qed.

Lemma next_commutes_with_translation_witness :
  wf_grid dead_grid /\
  current_state (with_grid (translate 20 31 row_blinker)) = translate 20 31 (current_state (with_grid row_blinker)) /\
  current_state (next dead_grid (with_grid (translate 20 31 row_blinker)))
  = translate 20 31 (current_state (next dead_grid (with_grid row_blinker))).
Proof.
  assert (Hwf : wf_grid dead_grid) by (split; [reflexivity | repeat constructor]).
  split; [exact Hwf |]. split; [reflexivity |].
  exact (next_commutes_with_translation 20 31 dead_grid dead_grid
           (with_grid row_blinker) (with_grid (translate 20 31 row_blinker))
           Hwf Hwf eq_refl).
Defined.

Lemma nexts_fixed (g : grid) (scrs : list grid) :
  reference_next g = g ->
  forall s, Forall wf_grid scrs -> current_state s = g ->
            current_state (nexts scrs s) = g.
Proof.
  intros Hfix. induction scrs as [|scr scrs IH]; intros s Hwf Hg; cbn [nexts fold_left].
  - exact Hg.
  - apply Forall_cons in Hwf as [Hscr Hwf]. apply (IH (next scr s) Hwf).
    rewrite (next_grid _ _ Hscr), Hg. exact Hfix.
Qed.

(** X10.  A 2 x 2 block of live cells, anywhere on the torus (also across
    an edge or a corner), is left unchanged by any number of calls of
    [next]. *)
Theorem block_is_still (a b : Z) (scrs : list grid) (s : state) :
  Forall wf_grid scrs ->
  current_state s = translate a b block ->
  current_state (nexts scrs s) = translate a b block.
Proof.
  intros Hwf Hg. apply nexts_fixed; [| exact Hwf | exact Hg].
  assert (Hblock : reference_next block = block) by (vm_compute; reflexivity).
  rewrite reference_next_translate, Hblock. reflexivity.
Qed.

Lemma block_is_still_witness :
  Forall wf_grid [dead_grid; row_blinker] /\
  current_state (with_grid (translate 1 1 block)) = translate 1 1 block /\
  read (translate 1 1 block) 31 31 = true /\ read (translate 1 1 block) 0 0 = true /\
  current_state (nexts [dead_grid; row_blinker] (with_grid (translate 1 1 block)))
  = translate 1 1 block.
Proof.
  assert (Hwf : Forall wf_grid [dead_grid; row_blinker])
    by (repeat constructor).
  split; [exact Hwf |]. split; [reflexivity |].
  split; [vm_compute; reflexivity |]. split; [vm_compute; reflexivity |].
  exact (block_is_still 1 1 [dead_grid; row_blinker]
           (with_grid (translate 1 1 block)) Hwf eq_refl).
Defined.

(** X11.  Three live cells in a row, anywhere on the torus, become three
    live cells in a column through the same centre after one call of
    [next], and are back after two. *)
Theorem blinker_has_period_two (a b : Z) (scratch1 scratch2 : grid) (s : state) :
  wf_grid scratch1 ->
  wf_grid scratch2 ->
  current_state s = translate a b row_blinker ->
  current_state (next scratch1 s) = translate a b column_blinker /\
  current_state (next scratch2 (next scratch1 s)) = translate a b row_blinker.
Proof.
  intros Hwf1 Hwf2 Hg.
  assert (Hrow : reference_next row_blinker = column_blinker)
    by (vm_compute; reflexivity).
  assert (Hcol : reference_next column_blinker = row_blinker)
    by (vm_compute; reflexivity).
  assert (H1 : current_state (next scratch1 s) = translate a b column_blinker).
  { rewrite (next_grid _ _ Hwf1), Hg, reference_next_translate, Hrow. reflexivity. }
  split; [exact H1 |].
  rewrite (next_grid _ _ Hwf2), H1, reference_next_translate, Hcol. reflexivity.
Qed.

Lemma blinker_has_period_two_witness :
  wf_grid dead_grid /\
  current_state (with_grid (translate 16 17 row_blinker)) = translate 16 17 row_blinker /\
  current_state (next dead_grid (next dead_grid (with_grid (translate 16 17 row_blinker))))
  = translate 16 17 row_blinker.
Proof.
  assert (Hwf : wf_grid dead_grid) by (split; [reflexivity | repeat constructor]).
  split; [exact Hwf |]. split; [reflexivity |].
  exact (proj2 (blinker_has_period_two 16 17 dead_grid dead_grid
                  (with_grid (translate 16 17 row_blinker)) Hwf Hwf eq_refl)).
Defined.

(* ===================================================================== *)
(** ** The neighbours of a cell *)
(* ===================================================================== *)

Lemma wrap_steps (r : Z) :
  0 <= r < 32 ->
  wrap (r + 0) = r /\ wrap (r + 1) <> r /\ wrap (r + -1) <> r /\
  wrap (r + 1) <> wrap (r + -1).
Proof.
  intros Hr. unfold wrap.
  destruct (Z.eqb_spec (r + 0) (-1)); [lia |].
  destruct (Z.eqb_spec (r + 0) 32); [lia |].
  destruct (Z.eqb_spec (r + 1) (-1)); [lia |].
  destruct (Z.eqb_spec (r + 1) 32);
    destruct (Z.eqb_spec (r + -1) (-1));
    destruct (Z.eqb_spec (r + -1) 32); repeat split; lia.
Qed.

(** X12.  Around a cell of the grid, [next] reads eight different cells,
    none of which is the cell itself; so the count is between 0 and 8 and
    does not depend on the value of the cell. *)
Theorem neighbours_are_eight_other_cells (g : grid) (r c : Z) (v : bool) :
  in_grid r c ->
  length (neighbour_cells r c) = 8%nat /\
  List.NoDup (neighbour_cells r c) /\
  ~ In (r, c) (neighbour_cells r c) /\
  0 <= liveNeighbors g r c <= 8 /\
  liveNeighbors (write g r c v) r c = liveNeighbors g r c.
Proof.
  intros [Hr Hc]. unfold ROWS in Hr. unfold COLS in Hc.
  destruct (wrap_steps r Hr) as (Hr0 & Hr1 & Hr2 & Hr3).
  destruct (wrap_steps c Hc) as (Hc0 & Hc1 & Hc2 & Hc3).
  unfold liveNeighbors, neighbour_cells. rewrite !neighbour_scan_unfold.
  rewrite Hr0, Hc0. cbn [app].
  set (ru := wrap (r + 1)) in *. set (rd := wrap (r + -1)) in *.
  set (cu := wrap (c + 1)) in *. set (cd := wrap (c + -1)) in *.
  split; [reflexivity |].
  split; [repeat constructor; cbn [In]; intuition congruence |].
  split; [cbn [In]; intuition congruence |].
  split.
  - repeat match goal with
           | |- context [read g ?y ?x] => destruct (read g y x)
           end; lia.
  - rewrite !read_write_ne by congruence. reflexivity.
Qed.

Lemma neighbours_are_eight_other_cells_witness :
  in_grid 0 31 /\ List.NoDup (neighbour_cells 0 31) /\ ~ In (0, 31) (neighbour_cells 0 31).
Proof.
  assert (Hin : in_grid 0 31) by (unfold in_grid, ROWS, COLS; lia).
  pose proof (neighbours_are_eight_other_cells dead_grid 0 31 true Hin)
    as (_ & Hnd & Hself & _).
  split; [exact Hin |]. split; [exact Hnd | exact Hself].
Defined.

(* ===================================================================== *)
(** ** More on seeding *)
(* ===================================================================== *)

(** X13.  With the same draws, a larger slider value never brings a cell to
    life: every cell alive after [randomize] with the larger value is alive
    after [randomize] with the smaller one, whatever the grids before. *)
Theorem randomize_is_monotone (D1 D2 : Z) (draw : nat -> Z) (s1 s2 : state) (r c : Z) :
  D1 <= D2 ->
  wf_grid (current_state s1) ->
  wf_grid (current_state s2) ->
  in_grid r c ->
  read (current_state (randomize D2 draw s2)) r c = true ->
  read (current_state (randomize D1 draw s1)) r c = true.
Proof.
  intros HD Hwf1 Hwf2 Hin.
  rewrite (randomize_grid D1 draw s1 Hwf1), (randomize_grid D2 draw s2 Hwf2).
  unfold seeded_grid. rewrite !read_tabulate by exact Hin.
  unfold seed_value. rewrite !Z.leb_le. lia.
Qed.

Lemma randomize_is_monotone_witness :
  30 <= 50 /\ wf_grid (current_state power_on) /\ in_grid 3 4 /\
  read (current_state (randomize 50 (fun k => Z.of_nat k) power_on)) 3 4 = true /\
  read (current_state (randomize 30 (fun k => Z.of_nat k) power_on)) 3 4 = true.
Proof.
  assert (HD : 30 <= 50) by lia.
  assert (Hwf : wf_grid (current_state power_on))
    by (split; [reflexivity | repeat constructor]).
  assert (Hin : in_grid 3 4) by (unfold in_grid, ROWS, COLS; lia).
  assert (H50 : read (current_state (randomize 50 (fun k => Z.of_nat k) power_on)) 3 4 = true)
    by (vm_compute; reflexivity).
  split; [exact HD |]. split; [exact Hwf |]. split; [exact Hin |].
  split; [exact H50 |].
  exact (randomize_is_monotone 30 50 (fun k => Z.of_nat k) power_on power_on 3 4
           HD Hwf Hwf Hin H50).
Defined.

(** X14.  The two ends of the slider: with draws in [1,99], every slider
    value up to 1 (0 and 1 alike) makes every cell alive, and every value
    from 100 on makes every cell dead. *)
Theorem randomize_extremes (D : Z) (draw : nat -> Z) (s : state) :
  (forall k, 1 <= draw k <= 99) ->
  wf_grid (current_state s) ->
  (D <= 1 -> current_state (randomize D draw s) = live_grid) /\
  (100 <= D -> current_state (randomize D draw s) = dead_grid).
Proof.
  intros Hdraw Hwf. rewrite (randomize_grid D draw s Hwf).
  change live_grid with (tabulate (fun _ _ => true)).
  change dead_grid with (tabulate (fun _ _ => false)).
  split; intros HD;
    (apply grid_ext; [apply wf_tabulate | apply wf_tabulate |]);
    intros r c Hin; unfold seeded_grid; rewrite !read_tabulate by exact Hin;
    unfold seed_value; specialize (Hdraw (Z.to_nat (COLS * r + c))).
  - apply Z.leb_le. lia.
  - apply Z.leb_gt. lia.
Qed.

Lemma randomize_extremes_witness :
  (forall k : nat, 1 <= 1 <= 99) /\ wf_grid (current_state power_on) /\
  current_state (randomize 1 (fun _ => 1) power_on) = live_grid.
Proof.
  assert (Hdraw : forall k : nat, 1 <= (fun _ : nat => 1) k <= 99) by (intros k; lia).
  assert (Hwf : wf_grid (current_state power_on))
    by (split; [reflexivity | repeat constructor]).
  split; [exact Hdraw |]. split; [exact Hwf |].
  apply (proj1 (randomize_extremes 1 (fun _ => 1) power_on Hdraw Hwf)). lia.
Defined.

(** X15.  [randomize] overwrites every cell and uses the first ROWS * COLS
    draws only: its grid is the same for any two grids before and any two
    sequences of draws that agree on their first 1024 elements. *)
Theorem randomize_forgets_the_grid (D : Z) (draw1 draw2 : nat -> Z) (s1 s2 : state) :
  wf_grid (current_state s1) ->
  wf_grid (current_state s2) ->
  (forall k, (k < 1024)%nat -> draw1 k = draw2 k) ->
  current_state (randomize D draw1 s1) = current_state (randomize D draw2 s2).
Proof.
  intros Hwf1 Hwf2 Hagree.
  rewrite (randomize_grid D draw1 s1 Hwf1), (randomize_grid D draw2 s2 Hwf2).
  apply grid_ext; [apply wf_tabulate | apply wf_tabulate |].
  intros r c Hin. unfold seeded_grid. rewrite !read_tabulate by exact Hin.
  rewrite Hagree; [reflexivity |].
  destruct Hin as [Hr Hc]. unfold ROWS, COLS in *. lia.
Qed.

Lemma randomize_forgets_the_grid_witness :
  wf_grid (current_state power_on) /\
  wf_grid (current_state (with_grid row_blinker)) /\
  (forall k, (k < 1024)%nat ->
     (fun k => Z.of_nat k) k = (fun k => if (k <? 1024)%nat then Z.of_nat k else 0) k) /\
  current_state (randomize 50 (fun k => Z.of_nat k) power_on)
  = current_state (randomize 50 (fun k => if (k <? 1024)%nat then Z.of_nat k else 0)
                             (with_grid row_blinker)).
Proof.
  assert (Hwf1 : wf_grid (current_state power_on))
    by (split; [reflexivity | repeat constructor]).
  assert (Hwf2 : wf_grid (current_state (with_grid row_blinker)))
    by (split; [reflexivity | repeat constructor]).
  assert (Hagree : forall k, (k < 1024)%nat ->
            (fun k => Z.of_nat k) k = (fun k => if (k <? 1024)%nat then Z.of_nat k else 0) k).
  { intros k Hk. cbv beta. destruct (Nat.ltb_spec k 1024); [reflexivity | lia]. }
  split; [exact Hwf1 |]. split; [exact Hwf2 |]. split; [exact Hagree |].
  exact (randomize_forgets_the_grid 50 _ _ power_on (with_grid row_blinker)
           Hwf1 Hwf2 Hagree).
Defined.

(* ===================================================================== *)
(** ** More on the cursor and the toggle *)
(* ===================================================================== *)

(** X16.  From a cursor inside the grid, opposite moves undo each other:
    left then right, right then left, up then down and down then up all
    bring the cursor back, also across an edge. *)
Theorem opposite_moves_cancel (s : state) :
  cursor_in_bounds s ->
  (lastC (moveCursorRight (moveCursorLeft s)) = lastC s /\
   lastR (moveCursorRight (moveCursorLeft s)) = lastR s) /\
  (lastC (moveCursorLeft (moveCursorRight s)) = lastC s /\
   lastR (moveCursorLeft (moveCursorRight s)) = lastR s) /\
  (lastR (moveCursorDown (moveCursorUp s)) = lastR s /\
   lastC (moveCursorDown (moveCursorUp s)) = lastC s) /\
  (lastR (moveCursorUp (moveCursorDown s)) = lastR s /\
   lastC (moveCursorUp (moveCursorDown s)) = lastC s).
Proof.
  unfold cursor_in_bounds, ROWS, COLS. intros [Hr Hc].
  repeat split; cbn.
  - destruct (Z.eqb_spec (lastC s) 0) as [-> | H0]; [reflexivity |].
    destruct (Z.eqb_spec (lastC s - 1) 31); lia.
  - destruct (Z.eqb_spec (lastC s) 31) as [-> | H0]; [reflexivity |].
    destruct (Z.eqb_spec (lastC s + 1) 0); lia.
  - destruct (Z.eqb_spec (lastR s) 31) as [-> | H0]; [reflexivity |].
    destruct (Z.eqb_spec (lastR s + 1) 0); lia.
  - destruct (Z.eqb_spec (lastR s) 0) as [-> | H0]; [reflexivity |].
    destruct (Z.eqb_spec (lastR s - 1) 31); lia.
Qed.

Lemma opposite_moves_cancel_witness :
  cursor_in_bounds power_on /\
  lastC (moveCursorLeft power_on) = 31 /\
  lastC (moveCursorRight (moveCursorLeft power_on)) = lastC power_on.
Proof.
  assert (Hb : cursor_in_bounds power_on)
    by (unfold cursor_in_bounds, ROWS, COLS; cbn; lia).
  split; [exact Hb |]. split; [reflexivity |].
  exact (proj1 (proj1 (opposite_moves_cancel power_on Hb))).
Defined.

(** X17.  The dead zone of the joystick is the closed range [-256, 256] on
    both axes: from a cursor inside the grid, a pass moves the cursor iff a
    reading lies outside it.  A reading of exactly 256 or -256 does not
    move it. *)
Theorem cursor_moves_iff_outside_dead_zone (inp : input) (s : state) :
  cursor_in_bounds s ->
  (lastR (move_stage inp s) = lastR s /\ lastC (move_stage inp s) = lastC s
   <-> at_rest inp).
Proof.
  unfold cursor_in_bounds, ROWS, COLS, at_rest, move_stage. intros [Hr Hc].
  destruct (Z.ltb_spec 256 (joyX inp)); destruct (Z.ltb_spec (joyX inp) (-256));
    destruct (Z.ltb_spec (joyY inp) (-256)); destruct (Z.ltb_spec 256 (joyY inp));
    cbn;
    repeat match goal with
           | |- context [?x =? ?y] => destruct (Z.eqb_spec x y)
           end; lia.
Qed.

Lemma cursor_moves_iff_outside_dead_zone_witness :
  cursor_in_bounds power_on /\
  lastC (move_stage (Input 256 (-256) HIGH HIGH HIGH HIGH HIGH 0 (fun _ => 1) dead_grid)
                    power_on) = 0.
Proof.
  assert (Hb : cursor_in_bounds power_on)
    by (unfold cursor_in_bounds, ROWS, COLS; cbn; lia).
  split; [exact Hb |].
  assert (Hrest : at_rest (Input 256 (-256) HIGH HIGH HIGH HIGH HIGH 0 (fun _ => 1) dead_grid))
    by (unfold at_rest; cbn; lia).
  exact (proj2 (proj2 (cursor_moves_iff_outside_dead_zone _ power_on Hb) Hrest)).
Defined.

(** X18.  [invertCurrentCell] changes the cell under the cursor and no other
    cell, and doing it twice gives back the grid. *)
Theorem invertCurrentCell_is_an_involution (s : state) :
  wf_grid (current_state s) ->
  cursor_in_bounds s ->
  current_state (invertCurrentCell (invertCurrentCell s)) = current_state s /\
  read (current_state (invertCurrentCell s)) (lastR s) (lastC s)
  = negb (read (current_state s) (lastR s) (lastC s)) /\
  (forall r c, (r, c) <> (lastR s, lastC s) ->
     read (current_state (invertCurrentCell s)) r c = read (current_state s) r c).
Proof.
  intros Hwf Hb.
  assert (Hin : in_grid (lastR s) (lastC s)) by exact Hb.
  assert (Hflip : read (current_state (invertCurrentCell s)) (lastR s) (lastC s)
                  = negb (read (current_state s) (lastR s) (lastC s))).
  { cbn. apply read_write_eq; assumption. }
  assert (Hframe : forall r c, (r, c) <> (lastR s, lastC s) ->
            read (current_state (invertCurrentCell s)) r c = read (current_state s) r c).
  { intros r c Hne. cbn. apply read_write_ne. exact Hne. }
  split; [| split; [exact Hflip | exact Hframe]].
  assert (Hwf' : wf_grid (current_state (invertCurrentCell s)))
    by (cbn; apply wf_grid_write; exact Hwf).
  apply grid_ext; [| exact Hwf |].
  - cbn. apply wf_grid_write. apply wf_grid_write. exact Hwf.
  - intros r c Hrc.
    destruct (decide ((r, c) = (lastR s, lastC s))) as [Heq | Hne].
    + injection Heq as -> ->.
      change (read (current_state (invertCurrentCell (invertCurrentCell s)))
                   (lastR (invertCurrentCell s)) (lastC (invertCurrentCell s))
              = read (current_state s) (lastR s) (lastC s)).
      cbn [invertCurrentCell highlight set_tft set_current_state current_state
           lastR lastC].
      rewrite read_write_eq; [| apply wf_grid_write; exact Hwf | exact Hin].
      rewrite read_write_eq by assumption. apply negb_involutive.
    + cbn [invertCurrentCell highlight set_tft set_current_state current_state
           lastR lastC].
      rewrite !read_write_ne by exact Hne. reflexivity.
Qed.

Lemma invertCurrentCell_is_an_involution_witness :
  wf_grid (current_state (with_grid row_blinker)) /\
  cursor_in_bounds (with_grid row_blinker) /\
  current_state (invertCurrentCell (invertCurrentCell (with_grid row_blinker)))
  = row_blinker.
Proof.
  assert (Hwf : wf_grid (current_state (with_grid row_blinker)))
    by (split; [reflexivity | repeat constructor]).
  assert (Hb : cursor_in_bounds (with_grid row_blinker))
    by (unfold cursor_in_bounds, ROWS, COLS; cbn; lia).
  split; [exact Hwf |]. split; [exact Hb |].
  exact (proj1 (invertCurrentCell_is_an_involution (with_grid row_blinker) Hwf Hb)).
Defined.

(** X19.  [setColor] gives the four combinations of alive or dead and
    highlighted or not four different colours, whatever the display held:
    the colour of a cell tells its value and whether the cursor is on it. *)
Theorem setColor_is_injective (v h v' h' : bool) (d d' : display) :
  pen (setColor v h d) = pen (setColor v' h' d') -> v = v' /\ h = h'.
Proof.
  destruct v, h, v', h'; cbn; intros Heq; split;
    try reflexivity; discriminate Heq.
Qed.

Lemma setColor_is_injective_witness :
  pen (setColor true false (Display (0, 0, 0) [])) = pen (setColor true false (Display (1, 2, 3) [])) /\
  true = true /\ false = false.
Proof.
  split; [reflexivity |].
  exact (setColor_is_injective true false true false
           (Display (0, 0, 0) []) (Display (1, 2, 3) []) eq_refl).
Defined.
